(** * A binary search tree on a mutable heap: [src/Customlib/BST.js]

    The JavaScript module builds an unbalanced binary search tree out of
    heap-allocated [Node] objects.  [insert] mutates child links in place,
    [min] and [count] read the tree, and the three traversals print every key
    with [console.log].

    The embedding keeps that shape: a store of [Node] records addressed by
    locations, a console that collects what was printed, and a small
    state-and-error monad in which the six functions are written line by line
    after the source.  Recursion and the [while] loop of [min] run on fuel. *)

From stdpp Require Import ssreflect base option numbers strings list sorting gmap.

#[local] Set Warnings "-rewrite-rw,-clear-no-such-hyp".

Module BST.

(** Object identities.  *)
Abbreviation loc := positive.

(** What a variable or a link field holding a tree can contain: JavaScript's
    two absence markers, or a reference to a [Node] object. *)
Inductive ref : Set :=
  | null
  | undefined
  | ptr (l : loc).

Global Instance ref_eq_dec : EqDecision ref.
Proof. solve_decision. Defined.

(** [node == null]: loose equality, true of [null] and of [undefined]. *)
Definition loose_null (r : ref) : bool :=
  match r with
  | null | undefined => true
  | ptr _ => false
  end.

(** [node === null]: strict equality, true of [null] only. *)
Definition strict_null (r : ref) : bool :=
  match r with
  | null => true
  | undefined | ptr _ => false
  end.

(** Why a run stops without a value. [TypeError] is the exception JavaScript
    throws on a property access through [null] or [undefined]; [Dangling] is a
    reference to an address the store does not hold (no JavaScript heap has
    one); [OutOfFuel] is the model's recursion bound. *)
Inductive error : Set :=
  | TypeError
  | Dangling
  | OutOfFuel.

Section WithKeys.

(** Keys are compared with [<=] only; the comparison is a decidable relation
    [R] on the key type. *)
Context {K : Type} (R : relation K) `{!RelDecision R}.

(** [class Node]: the constructor sets both links to [null]. *)
Record Node : Type := mkNode {
  left : ref;
  right : ref;
  data : K;
}.

(** What [min] hands back: [null], or the [data] of a node. *)
Inductive val : Type :=
  | VNull
  | VData (k : K).

(** The store of objects and the lines printed so far. *)
Record state : Type := mkState {
  heap : gmap loc Node;
  console : list K;
}.

Inductive outcome (A : Type) : Type :=
  | Done (a : A) (σ : state)
  | Fail (e : error).
Global Arguments Done {A} a σ.
Global Arguments Fail {A} e.

Definition M (A : Type) : Type := state → outcome A.

Global Instance M_ret : MRet M := λ A a σ, Done a σ.
Global Instance M_bind : MBind M := λ A B f m σ,
  match m σ with
  | Done a σ' => f a σ'
  | Fail e => Fail e
  end.

Definition throw {A} (e : error) : M A := λ _, Fail e.

(** Property reads [node.left], [node.right], [node.data]. *)
Definition read {A} (field : Node → A) (node : ref) : M A := λ σ,
  match node with
  | null | undefined => Fail TypeError
  | ptr l =>
      match heap σ !! l with
      | Some n => Done (field n) σ
      | None => Fail Dangling
      end
  end.

(** Property writes [node.left = v] and [node.right = v]. *)
Definition write (upd : Node → Node) (node : ref) : M unit := λ σ,
  match node with
  | null | undefined => Fail TypeError
  | ptr l =>
      match heap σ !! l with
      | Some n => Done () (mkState (<[l := upd n]> (heap σ)) (console σ))
      | None => Fail Dangling
      end
  end.

Definition set_left (v : ref) (n : Node) : Node := mkNode v (right n) (data n).
Definition set_right (v : ref) (n : Node) : Node := mkNode (left n) v (data n).

(** [new Node(data)]: a fresh object with both links [null]. *)
Definition new_Node (d : K) : M ref := λ σ,
  let l := fresh (dom (heap σ)) in
  Done (ptr l) (mkState (<[l := mkNode null null d]> (heap σ)) (console σ)).

(** [console.log(node.data)] *)
Definition console_log (k : K) : M unit := λ σ,
  Done () (mkState (heap σ) (console σ ++ [k])).

(** [insert] *)
Fixpoint insert (fuel : nat) (node : ref) (d : K) : M ref :=
  match fuel with
  | 0 => throw OutOfFuel
  | S fuel =>
      if loose_null node then new_Node d
      else
        nd ← read data node;
        if decide (R d nd) then
          l ← read left node;
          l' ← insert fuel l d;
          write (set_left l') node;;
          mret node
        else
          r ← read right node;
          r' ← insert fuel r d;
          write (set_right r') node;;
          mret node
  end.

(** The loop of [min], with its two locals:
    [while (node.left !== null) { node = node.left; minValue = node.data; }]
    followed by [return minValue]. *)
Fixpoint min_loop (fuel : nat) (node : ref) (minValue : K) : M val :=
  match fuel with
  | 0 => throw OutOfFuel
  | S fuel =>
      l ← read left node;
      if strict_null l then mret (VData minValue)
      else
        node' ← read left node;
        minValue' ← read data node';
        min_loop fuel node' minValue'
  end.

(** [min] *)
Definition min (fuel : nat) (node : ref) : M val :=
  if strict_null node then mret VNull
  else
    minValue ← read data node;
    min_loop fuel node minValue.

(** [count] *)
Fixpoint count (fuel : nat) (node : ref) : M nat :=
  match fuel with
  | 0 => throw OutOfFuel
  | S fuel =>
      if loose_null node then mret 0
      else
        l ← read left node;
        a ← count fuel l;
        r ← read right node;
        b ← count fuel r;
        mret (a + b + 1)
  end.

(** [inOrder]: returns [null] on an empty tree and falls off the end
    ([undefined]) otherwise. *)
Fixpoint inOrder (fuel : nat) (node : ref) : M ref :=
  match fuel with
  | 0 => throw OutOfFuel
  | S fuel =>
      if loose_null node then mret null
      else
        l ← read left node;
        inOrder fuel l;;
        d ← read data node;
        console_log d;;
        r ← read right node;
        inOrder fuel r;;
        mret undefined
  end.

(** [preOrder] *)
Fixpoint preOrder (fuel : nat) (node : ref) : M ref :=
  match fuel with
  | 0 => throw OutOfFuel
  | S fuel =>
      if loose_null node then mret null
      else
        d ← read data node;
        console_log d;;
        l ← read left node;
        preOrder fuel l;;
        r ← read right node;
        preOrder fuel r;;
        mret undefined
  end.

(** [postOrder] *)
Fixpoint postOrder (fuel : nat) (node : ref) : M ref :=
  match fuel with
  | 0 => throw OutOfFuel
  | S fuel =>
      if loose_null node then mret null
      else
        l ← read left node;
        postOrder fuel l;;
        r ← read right node;
        postOrder fuel r;;
        d ← read data node;
        console_log d;;
        mret undefined
  end.

(** The loop of [executeNodeCase]:
    [nodeData.forEach((key) => { root = insert(root, key); })]. *)
Fixpoint forEach_insert (fuel : nat) (nodeData : list K) (root : ref) : M ref :=
  match nodeData with
  | [] => mret root
  | key :: rest =>
      root' ← insert fuel root key;
      forEach_insert fuel rest root'
  end.

(** ** The tree a reference stands for

    [Tree l tl k tr] is the object at address [l] holding key [k]; the
    functions below are the mathematical reading of a tree, against which the
    heap programs are specified. *)
Inductive tree : Type :=
  | Leaf
  | Tree (l : loc) (tl : tree) (k : K) (tr : tree).

(** [repr h r t]: in store [h], following links from [r] unfolds to [t];
    every empty slot is [null], as the constructor leaves it. *)
Fixpoint repr (h : gmap loc Node) (r : ref) (t : tree) : Prop :=
  match t with
  | Leaf => r = null
  | Tree l tl k tr =>
      r = ptr l ∧
      ∃ n, h !! l = Some n ∧ data n = k ∧
           repr h (left n) tl ∧ repr h (right n) tr
  end.

Fixpoint locs (t : tree) : list loc :=
  match t with
  | Leaf => []
  | Tree l tl _ tr => l :: locs tl ++ locs tr
  end.

(** A tree proper: each subtree belongs to one parent link only. *)
Definition is_tree (h : gmap loc Node) (r : ref) (t : tree) : Prop :=
  repr h r t ∧ NoDup (locs t).

Definition root (t : tree) : ref :=
  match t with
  | Leaf => null
  | Tree l _ _ _ => ptr l
  end.

Fixpoint inorder (t : tree) : list K :=
  match t with
  | Leaf => []
  | Tree _ tl k tr => inorder tl ++ k :: inorder tr
  end.

Fixpoint preorder (t : tree) : list K :=
  match t with
  | Leaf => []
  | Tree _ tl k tr => k :: preorder tl ++ preorder tr
  end.

Fixpoint postorder (t : tree) : list K :=
  match t with
  | Leaf => []
  | Tree _ tl k tr => postorder tl ++ postorder tr ++ [k]
  end.

Fixpoint size (t : tree) : nat :=
  match t with
  | Leaf => 0
  | Tree _ tl _ tr => 1 + size tl + size tr
  end.

Fixpoint height (t : tree) : nat :=
  match t with
  | Leaf => 0
  | Tree _ tl _ tr => S (height tl `max` height tr)
  end.

(** Two trees of one shape, whatever their keys and addresses. *)
Fixpoint same_shape (t1 t2 : tree) : Prop :=
  match t1, t2 with
  | Leaf, Leaf => True
  | Tree _ l1 _ r1, Tree _ l2 _ r2 => same_shape l1 l2 ∧ same_shape r1 r2
  | _, _ => False
  end.

(** The key found by walking left links from a node with key [k] and left
    subtree [tl] until there is no left child. *)
Fixpoint leftmost (tl : tree) (k : K) : K :=
  match tl with
  | Leaf => k
  | Tree _ tl' k' _ => leftmost tl' k'
  end.

Definition min_of (t : tree) : val :=
  match t with
  | Leaf => VNull
  | Tree _ tl k _ => VData (leftmost tl k)
  end.

(** What a traversal returns: [null] from the guard on an empty tree,
    [undefined] after running off the end of the body otherwise. *)
Definition traversal_result (t : tree) : ref :=
  match t with
  | Leaf => null
  | Tree _ _ _ _ => undefined
  end.

(** The ordering invariant: at every node, keys to the left are [<=] the
    node's key and keys to the right are strictly greater. *)
Fixpoint bst (t : tree) : Prop :=
  match t with
  | Leaf => True
  | Tree _ tl k tr =>
      Forall (λ x, R x k) (inorder tl) ∧
      Forall (λ x, strict R k x) (inorder tr) ∧
      bst tl ∧ bst tr
  end.

(** Insertion as the specification words it: an empty tree becomes a single
    node at the new address [new]; otherwise the key goes into the left
    subtree when it is [<=] the root's key and into the right subtree
    otherwise, and the root stays the root. *)
Fixpoint spec_insert (new : loc) (d : K) (t : tree) : tree :=
  match t with
  | Leaf => Tree new Leaf d Leaf
  | Tree l tl k tr =>
      if decide (R d k) then Tree l (spec_insert new d tl) k tr
      else Tree l tl k (spec_insert new d tr)
  end.

(** [m] is a smallest element of [ks]. *)
Definition is_minimum (m : K) (ks : list K) : Prop :=
  m ∈ ks ∧ Forall (R m) ks.

(** ** Properties of computations *)

(** A computation that leaves the store as it found it whenever it returns. *)
Definition preserves_heap {A} (m : M A) : Prop :=
  ∀ σ a σ', m σ = Done a σ' → heap σ' = heap σ.

(** A computation that leaves the whole state as it found it. *)
Definition preserves_state {A} (m : M A) : Prop :=
  ∀ σ a σ', m σ = Done a σ' → σ' = σ.

(** [m2] returns whatever [m1] returns. *)
Definition approx {A} (m1 m2 : M A) : Prop :=
  ∀ σ a σ', m1 σ = Done a σ' → m2 σ = Done a σ'.

(** Running [m] twice in a row from [σ] returns both times and prints the
    same sequence [out] each time. *)
Definition prints_twice (m : M ref) (σ : state) (out : list K) : Prop :=
  ∃ v1 σ1 v2 σ2,
    m σ = Done v1 σ1 ∧ console σ1 = console σ ++ out ∧
    m σ1 = Done v2 σ2 ∧ console σ2 = console σ1 ++ out.

(** What survives of a node [n] in a later version [n'] of it: the key, and
    every link that already pointed to an object. *)
Definition node_kept (n n' : Node) : Prop :=
  data n' = data n ∧
  (∀ c, left n = ptr c → left n' = ptr c) ∧
  (∀ c, right n = ptr c → right n' = ptr c).

(** The minimum once [d] has joined a tree whose minimum was [v]. *)
Definition min_with (d : K) (v : val) : K :=
  match v with
  | VNull => d
  | VData m => if decide (R d m) then d else m
  end.

(** A computation that only ever adds lines to the console. *)
Definition extends_console {A} (m : M A) : Prop :=
  ∀ σ a σ', m σ = Done a σ' → ∃ out, console σ' = console σ ++ out.

(** ** Trees up to addresses

    Two runs that build the same tree allocate different objects; what
    they share is the arrangement of keys. *)
Inductive keytree : Type :=
  | KLeaf
  | KTree (tl : keytree) (k : K) (tr : keytree).

Fixpoint erase (t : tree) : keytree :=
  match t with
  | Leaf => KLeaf
  | Tree _ tl k tr => KTree (erase tl) k (erase tr)
  end.

(** Where [insert] puts a key, read on the arrangement of keys alone. *)
Fixpoint key_insert (d : K) (s : keytree) : keytree :=
  match s with
  | KLeaf => KTree KLeaf d KLeaf
  | KTree tl k tr =>
      if decide (R d k) then KTree (key_insert d tl) k tr
      else KTree tl k (key_insert d tr)
  end.

(** The [forEach] loop, read the same way. *)
Fixpoint key_insert_all (ks : list K) (s : keytree) : keytree :=
  match ks with
  | [] => s
  | d :: rest => key_insert_all rest (key_insert d s)
  end.

(** The two degenerate arrangements: every node has a left child only, or a
    right child only; the first key of the list is at the root. *)
Fixpoint left_spine (ks : list K) : keytree :=
  match ks with
  | [] => KLeaf
  | k :: rest => KTree (left_spine rest) k KLeaf
  end.

Fixpoint right_spine (ks : list K) : keytree :=
  match ks with
  | [] => KLeaf
  | k :: rest => KTree KLeaf k (right_spine rest)
  end.

End WithKeys.

Global Arguments Node K : clear implicits.
Global Arguments val K : clear implicits.
Global Arguments state K : clear implicits.
Global Arguments outcome K A : clear implicits.
Global Arguments M K A : clear implicits.
Global Arguments tree K : clear implicits.
Global Arguments keytree K : clear implicits.

(** ** Sample data: integer keys compared by [Z.le] *)

Definition empty_state : state Z := mkState ∅ [].

(** A three-node tree laid out by hand: key 4 at address 1 with children
    2 (address 2) and 6 (address 3). *)
Definition heap3 : gmap loc (Node Z) :=
  <[1%positive := mkNode (ptr 2) (ptr 3) 4%Z]>
  (<[2%positive := mkNode null null 2%Z]>
  (<[3%positive := mkNode null null 6%Z]> ∅)).

Definition state3 : state Z := mkState heap3 [].

Definition tree3 : tree Z :=
  Tree 1 (Tree 2 Leaf 2%Z Leaf) 4%Z (Tree 3 Leaf 6%Z Leaf).



(** The key list of [executeNodeCase]. *)
Definition nodeData : list Z := [4; 2; 1; 3; 6; 5]%Z.

(** How string concatenation renders what a traversal returns. *)
Definition to_string (r : ref) : string :=
  match r with
  | null => "null"
  | undefined => "undefined"
  | ptr _ => "[object Object]"
  end.

(** [executeNodeCase]: build the tree from [nodeData], then
    [return "Minimum value in BST is " + inOrder(root)]. *)
Definition executeNodeCase (fuel : nat) : M Z string :=
  root ← forEach_insert Z.le fuel nodeData null;
  v ← inOrder fuel root;
  mret ("Minimum value in BST is " +:+ to_string v).

(** ** Proofs *)

Section Proofs.

Context {K : Type} (R : relation K) `{!RelDecision R}.

Implicit Types (h : gmap loc (Node K)) (σ : state K) (t : tree K)
  (r : ref) (l : loc) (d k : K) (ks : list K) (fuel : nat).

(** *** Running the monad *)

Lemma bind_Done {A B} (m : M K A) (f : A → M K B) σ a σ' :
  m σ = Done a σ' → (m ≫= f) σ = f a σ'.
Proof. rewrite /mbind /M_bind. by intros ->. Qed.

Lemma read_ptr {A} (field : Node K → A) l n σ :
  heap σ !! l = Some n → read field (ptr l) σ = Done (field n) σ.
Proof. rewrite /read. by intros ->. Qed.

Lemma write_ptr (upd : Node K → Node K) l n σ :
  heap σ !! l = Some n →
  write upd (ptr l) σ = Done () (mkState (<[l := upd n]> (heap σ)) (console σ)).
Proof. rewrite /write. by intros ->. Qed.

(** *** The representation predicate *)

Lemma repr_root h r t : repr h r t → r = root t.
Proof. destruct t; simpl; [done | by intros [-> _]]. Qed.

Lemma repr_allocated h r t l : repr h r t → l ∈ locs t → is_Some (h !! l).
Proof.
  revert r. induction t as [|l0 tl IHl k tr IHr]; intros r; simpl.
  - intros _ Hin. by apply elem_of_nil in Hin.
  - intros (-> & n & Hn & _ & Hl & Hr) Hin.
    apply elem_of_cons in Hin as [-> | Hin]; [by eexists |].
    apply elem_of_app in Hin as [Hin | Hin]; eauto.
Qed.

(** [repr] reads the store at the tree's own addresses only. *)
Lemma repr_agree h h' r t :
  repr h r t → (∀ l, l ∈ locs t → h' !! l = h !! l) → repr h' r t.
Proof.
  revert r. induction t as [|l0 tl IHl k tr IHr]; intros r; simpl; [done |].
  intros (-> & n & Hn & Hk & Hl & Hr) Hag.
  split; [done |]. exists n. split_and!.
  - rewrite Hag; [done | set_solver].
  - done.
  - apply IHl; [done |]. intros l Hin. apply Hag. set_solver.
  - apply IHr; [done |]. intros l Hin. apply Hag. set_solver.
Qed.

(** A store and a reference determine the tree. *)
Lemma repr_inj h r t1 t2 : repr h r t1 → repr h r t2 → t1 = t2.
Proof.
  revert r t2. induction t1 as [|l1 tl1 IHl k1 tr1 IHr]; intros r [|l2 tl2 k2 tr2]; simpl.
  - done.
  - by intros -> [? _].
  - by intros [-> _] ?.
  - intros (-> & n1 & Hn1 & <- & Hl1 & Hr1) (Heq & n2 & Hn2 & <- & Hl2 & Hr2).
    simplify_eq. f_equal; eauto.
Qed.

Lemma height_le_size t : height t ≤ size t.
Proof. induction t; simpl; lia. Qed.

(** *** The specification-level insertion *)

Lemma root_spec_insert new d l tl k tr :
  root (spec_insert R new d (Tree l tl k tr)) = ptr l.
Proof. simpl. by case_decide. Qed.

Lemma locs_spec_insert new d t l :
  l ∈ locs (spec_insert R new d t) ↔ l = new ∨ l ∈ locs t.
Proof.
  induction t as [|l0 tl IHl k tr IHr]; simpl.
  - set_solver.
  - case_decide; simpl; set_solver.
Qed.

Lemma NoDup_spec_insert new d t :
  new ∉ locs t → NoDup (locs t) → NoDup (locs (spec_insert R new d t)).
Proof.
  induction t as [|l0 tl IHl k tr IHr]; simpl.
  - intros _ _. apply NoDup_singleton.
  - intros Hnew Hnd.
    apply NoDup_cons in Hnd as [Hl0 Hnd].
    apply NoDup_app in Hnd as (Hndl & Hdisj & Hndr).
    case_decide; simpl; apply NoDup_cons; split.
    + rewrite elem_of_app locs_spec_insert. set_solver.
    + apply NoDup_app. split_and!.
      * apply IHl; [set_solver | done].
      * intros x Hx%locs_spec_insert. set_solver.
      * done.
    + rewrite elem_of_app locs_spec_insert. set_solver.
    + apply NoDup_app. split_and!.
      * done.
      * intros x Hx Hx'%locs_spec_insert. set_solver.
      * apply IHr; [set_solver | done].
Qed.

Lemma inorder_spec_insert new d t :
  inorder (spec_insert R new d t) ≡ₚ d :: inorder t.
Proof.
  induction t as [|l0 tl IHl k tr IHr]; simpl; [done |].
  case_decide; simpl.
  - by rewrite IHl.
  - rewrite IHr. by rewrite -!Permutation_middle Permutation_swap.
Qed.

Lemma size_spec_insert new d t : size (spec_insert R new d t) = S (size t).
Proof.
  induction t as [|l0 tl IHl k tr IHr]; simpl; [done |].
  case_decide; simpl; lia.
Qed.

(** *** [insert] on the heap refines [spec_insert] *)

(** What one call of [insert] guarantees, in terms of the tree it started
    from: it returns, the result stands for [spec_insert] of the old tree
    with the new node at the next free address, nothing is printed, and the
    store changes at the tree's own addresses and the new one only. *)
Lemma insert_sound t : ∀ fuel r d σ,
  repr (heap σ) r t → NoDup (locs t) → height t < fuel →
  let new := fresh (dom (heap σ)) in
  let t' := spec_insert R new d t in
  ∃ σ', insert R fuel r d σ = Done (root t') σ' ∧
        repr (heap σ') (root t') t' ∧
        console σ' = console σ ∧
        dom (heap σ') = {[new]} ∪ dom (heap σ) ∧
        (∀ l, l ∉ locs t → l ≠ new → heap σ' !! l = heap σ !! l).
Proof.
  induction t as [|l0 tl IHl k tr IHr]; intros fuel r d σ Hrep Hnd Hfuel;
    cbv zeta; [| cbv zeta in IHl, IHr].
  - (* the empty slot: allocate *)
    simpl in Hrep. subst r. destruct fuel as [|fuel]; [simpl in Hfuel; lia |].
    eexists. split; [reflexivity |]. simpl.
    refine (conj _ (conj _ (conj _ _))).
    + split; [done |]. eexists. split; [apply lookup_insert_eq |]. done.
    + done.
    + by rewrite dom_insert_L.
    + intros l _ Hne. by rewrite lookup_insert_ne.
  - (* a node: descend, then reattach *)
    simpl in Hrep. destruct Hrep as (-> & n & Hn & Hk & Hl & Hr).
    destruct fuel as [|fuel]; [simpl in Hfuel; lia |]. simpl in Hfuel.
    simpl in Hnd. apply NoDup_cons in Hnd as [Hl0 Hnd].
    apply NoDup_app in Hnd as (Hndl & Hdisj & Hndr).
    remember (fresh (dom (heap σ))) as new eqn:Hnew.
    assert (Hfresh : new ∉ dom (heap σ)) by (subst new; apply is_fresh).
    assert (Hl0new : l0 ≠ new).
    { intros ->. apply Hfresh, elem_of_dom. by eexists. }
    assert (Hnewl : ∀ l, l ∈ locs tl → l ≠ new).
    { intros l Hin Heq. apply Hfresh, elem_of_dom. rewrite -Heq.
      exact (repr_allocated _ _ _ _ Hl Hin). }
    assert (Hnewr : ∀ l, l ∈ locs tr → l ≠ new).
    { intros l Hin Heq. apply Hfresh, elem_of_dom. rewrite -Heq.
      exact (repr_allocated _ _ _ _ Hr Hin). }
    simpl. rewrite (bind_Done _ _ _ _ _ (read_ptr data _ _ _ Hn)) Hk.
    destruct (decide (R d k)) as [Hle | Hgt]; simpl.
    + rewrite (bind_Done _ _ _ _ _ (read_ptr left _ _ _ Hn)).
      destruct (IHl fuel (left n) d σ Hl Hndl ltac:(lia))
        as (σ1 & Hrun & Hrep1 & Hcon1 & Hdom1 & Hfr1).
      rewrite -Hnew in Hrun, Hrep1, Hdom1, Hfr1.
      rewrite (bind_Done _ _ _ _ _ Hrun).
      assert (Hn1 : heap σ1 !! l0 = Some n).
      { rewrite -Hn. apply Hfr1; [set_solver | done]. }
      rewrite (bind_Done _ _ _ _ _ (write_ptr _ _ _ _ Hn1)).
      eexists. split; [reflexivity |]. simpl.
      refine (conj _ (conj _ (conj _ _))).
      * split; [done |]. eexists. split; [apply lookup_insert_eq |].
        simpl. refine (conj _ (conj _ _)); [done | |].
        -- eapply repr_agree; [exact Hrep1 |].
           intros l Hin. rewrite lookup_insert_ne //.
           intros <-. apply locs_spec_insert in Hin as [? | ?]; set_solver.
        -- eapply repr_agree; [exact Hr |].
           intros l Hin. rewrite lookup_insert_ne; last set_solver.
           apply Hfr1; [set_solver | by apply Hnewr].
      * done.
      * rewrite dom_insert_L Hdom1.
        assert (l0 ∈ dom (heap σ)) by (apply elem_of_dom; by eexists).
        set_solver.
      * intros l Hnin Hne. rewrite lookup_insert_ne; last set_solver.
        apply Hfr1; set_solver.
    + rewrite (bind_Done _ _ _ _ _ (read_ptr right _ _ _ Hn)).
      destruct (IHr fuel (right n) d σ Hr Hndr ltac:(lia))
        as (σ1 & Hrun & Hrep1 & Hcon1 & Hdom1 & Hfr1).
      rewrite -Hnew in Hrun, Hrep1, Hdom1, Hfr1.
      rewrite (bind_Done _ _ _ _ _ Hrun).
      assert (Hn1 : heap σ1 !! l0 = Some n).
      { rewrite -Hn. apply Hfr1; [set_solver | done]. }
      rewrite (bind_Done _ _ _ _ _ (write_ptr _ _ _ _ Hn1)).
      eexists. split; [reflexivity |]. simpl.
      refine (conj _ (conj _ (conj _ _))).
      * split; [done |]. eexists. split; [apply lookup_insert_eq |].
        simpl. refine (conj _ (conj _ _)); [done | |].
        -- eapply repr_agree; [exact Hl |].
           intros l Hin. rewrite lookup_insert_ne; last set_solver.
           apply Hfr1; [set_solver | by apply Hnewl].
        -- eapply repr_agree; [exact Hrep1 |].
           intros l Hin. rewrite lookup_insert_ne //.
           intros <-. apply locs_spec_insert in Hin as [? | ?]; set_solver.
      * done.
      * rewrite dom_insert_L Hdom1.
        assert (l0 ∈ dom (heap σ)) by (apply elem_of_dom; by eexists).
        set_solver.
      * intros l Hnin Hne. rewrite lookup_insert_ne; last set_solver.
        apply Hfr1; set_solver.
Qed.

Lemma height_spec_insert new d t :
  height (spec_insert R new d t) ≤ S (height t).
Proof.
  induction t as [|l0 tl IHl k tr IHr]; simpl; [lia |].
  case_decide; simpl; lia.
Qed.

(** *** Readers: traversals, [count], [min] *)

Lemma console_log_run k σ :
  console_log k σ = Done () (mkState (heap σ) (console σ ++ [k])).
Proof. done. Qed.

Lemma mret_run {A} (a : A) σ : (mret a : M K A) σ = Done a σ.
Proof. done. Qed.

(** One step of a run: a property read, a print, a recursive call whose
    result is known from the induction hypothesis. *)
Ltac run_read H :=
  match goal with
  | |- context [(read ?f (ptr ?l) ≫= ?k) ?s] =>
      rewrite (bind_Done (read f (ptr l)) k s _ s (read_ptr f l _ s H));
      cbv beta
  end.
Ltac run_log :=
  match goal with
  | |- context [(console_log ?d ≫= ?k) ?s] =>
      rewrite (bind_Done (console_log d) k s _ _ (console_log_run d s));
      cbv beta
  end.
Ltac run_rec IH H :=
  match goal with
  | |- context [(?f ?fuel ?r ≫= ?k) ?s] =>
      rewrite (bind_Done (f fuel r) k s _ _ (IH fuel r s H ltac:(simpl; lia)));
      cbv beta
  end.

Lemma printed σ :
  mkState (heap σ) (console σ ++ []) = σ.
Proof. destruct σ; simpl. by rewrite app_nil_r. Qed.

Lemma inOrder_sound t : ∀ fuel r σ,
  repr (heap σ) r t → height t < fuel →
  inOrder fuel r σ =
    Done (traversal_result t) (mkState (heap σ) (console σ ++ inorder t)).
Proof.
  induction t as [|l0 tl IHl k tr IHr]; intros [|fuel] r σ Hrep Hfuel;
    simpl in Hfuel; try lia; simpl in Hrep.
  - subst r. simpl. by rewrite printed.
  - destruct Hrep as (-> & n & Hn & Hk & Hl & Hr).
    rewrite [inOrder _ _]/=.
    run_read Hn. run_rec IHl Hl. run_read Hn. run_log. run_read Hn.
    run_rec IHr Hr. rewrite mret_run Hk /=. by rewrite -!app_assoc.
Qed.

Lemma preOrder_sound t : ∀ fuel r σ,
  repr (heap σ) r t → height t < fuel →
  preOrder fuel r σ =
    Done (traversal_result t) (mkState (heap σ) (console σ ++ preorder t)).
Proof.
  induction t as [|l0 tl IHl k tr IHr]; intros [|fuel] r σ Hrep Hfuel;
    simpl in Hfuel; try lia; simpl in Hrep.
  - subst r. simpl. by rewrite printed.
  - destruct Hrep as (-> & n & Hn & Hk & Hl & Hr).
    rewrite [preOrder _ _]/=.
    run_read Hn. run_log. run_read Hn. run_rec IHl Hl. run_read Hn.
    run_rec IHr Hr. rewrite mret_run Hk /=. by rewrite -!app_assoc.
Qed.

Lemma postOrder_sound t : ∀ fuel r σ,
  repr (heap σ) r t → height t < fuel →
  postOrder fuel r σ =
    Done (traversal_result t) (mkState (heap σ) (console σ ++ postorder t)).
Proof.
  induction t as [|l0 tl IHl k tr IHr]; intros [|fuel] r σ Hrep Hfuel;
    simpl in Hfuel; try lia; simpl in Hrep.
  - subst r. simpl. by rewrite printed.
  - destruct Hrep as (-> & n & Hn & Hk & Hl & Hr).
    rewrite [postOrder _ _]/=.
    run_read Hn. run_rec IHl Hl. run_read Hn. run_rec IHr Hr. run_read Hn.
    run_log. rewrite mret_run Hk /=. by rewrite -!app_assoc.
Qed.

Lemma count_sound t : ∀ fuel r σ,
  repr (heap σ) r t → height t < fuel →
  count fuel r σ = Done (size t) σ.
Proof.
  induction t as [|l0 tl IHl k tr IHr]; intros [|fuel] r σ Hrep Hfuel;
    simpl in Hfuel; try lia; simpl in Hrep.
  - by subst r.
  - destruct Hrep as (-> & n & Hn & Hk & Hl & Hr).
    rewrite [count _ _]/=.
    run_read Hn. run_rec IHl Hl. run_read Hn. run_rec IHr Hr.
    rewrite mret_run /=. f_equal. lia.
Qed.

Lemma min_loop_sound tl : ∀ fuel l n minValue σ,
  heap σ !! l = Some n → repr (heap σ) (left n) tl → height tl < fuel →
  min_loop fuel (ptr l) minValue σ = Done (VData (leftmost tl minValue)) σ.
Proof.
  induction tl as [|l' tl' IHl k' tr' _]; intros [|fuel] l n mv σ Hn Hrep Hfuel;
    simpl in Hfuel; try lia; simpl in Hrep; simpl.
  - run_read Hn. by rewrite Hrep.
  - destruct Hrep as (Hleft & n' & Hn' & Hk' & Hl' & _).
    run_read Hn. rewrite Hleft /=. run_read Hn. rewrite Hleft.
    run_read Hn'. rewrite Hk'.
    apply (IHl fuel l' n' k' σ Hn' Hl'). lia.
Qed.

Lemma min_sound t fuel r σ :
  repr (heap σ) r t → height t < fuel →
  min fuel r σ = Done (min_of t) σ.
Proof.
  destruct t as [|l tl k tr]; simpl.
  - by intros -> _.
  - intros (-> & n & Hn & Hk & Hl & _) Hfuel. rewrite /min /=.
    run_read Hn. rewrite Hk. apply (min_loop_sound tl fuel l n k σ Hn Hl). lia.
Qed.

(** *** The ordering invariant *)

Lemma bst_spec_insert `{!Total R} new d t :
  bst R t → bst R (spec_insert R new d t).
Proof.
  induction t as [|l0 tl IHl k tr IHr]; simpl.
  - intros _. by repeat split.
  - intros (Hl & Hr & Hbl & Hbr).
    destruct (decide (R d k)) as [Hle | Hgt]; simpl.
    + refine (conj _ (conj Hr (conj (IHl Hbl) Hbr))).
      rewrite inorder_spec_insert. by constructor.
    + refine (conj Hl (conj _ (conj Hbl (IHr Hbr)))).
      rewrite inorder_spec_insert. constructor; [| done].
      by apply total_not_strict.
Qed.

Lemma bst_inorder_sorted `{!Transitive R} t :
  bst R t → StronglySorted R (inorder t).
Proof.
  induction t as [|l0 tl IHl k tr IHr]; simpl.
  - intros _. constructor.
  - intros (Hl & Hr & Hbl & Hbr).
    rewrite -> Forall_forall in Hl. rewrite -> Forall_forall in Hr.
    apply StronglySorted_app_2; [| by apply IHl |].
    + intros x1 x2 Hx1 [-> | Hx2]%elem_of_cons; [by apply Hl |].
      transitivity k; [by apply Hl | by apply Hr].
    + constructor; [by apply IHr |].
      apply Forall_forall. intros x Hx. by apply Hr.
Qed.

Lemma leftmost_elem tl k l tr : leftmost tl k ∈ inorder (Tree l tl k tr).
Proof.
  revert k l tr. induction tl as [|l' tl' IHl k' tr' _]; intros k l tr; simpl.
  - set_solver.
  - specialize (IHl k' l' tr'). simpl in IHl. set_solver.
Qed.

Lemma leftmost_least `{!Total R, !Transitive R} tl k l tr :
  bst R (Tree l tl k tr) → Forall (R (leftmost tl k)) (inorder (Tree l tl k tr)).
Proof.
  revert k l tr. induction tl as [|l' tl' IHl k' tr' _]; intros k l tr.
  - simpl. intros (_ & Hr & _ & _). constructor.
    + by destruct (total R k k).
    + eapply Forall_impl; [exact Hr |]. by intros x [? _].
  - intros (Hl & Hr & Hbl & Hbr).
    specialize (IHl k' l' tr' Hbl).
    change (inorder (Tree l (Tree l' tl' k' tr') k tr))
      with (inorder (Tree l' tl' k' tr') ++ k :: inorder tr).
    change (leftmost (Tree l' tl' k' tr') k) with (leftmost tl' k').
    assert (Hmk : R (leftmost tl' k') k).
    { rewrite -> Forall_forall in Hl. apply Hl, leftmost_elem. }
    apply Forall_app. split; [done |]. constructor; [done |].
    eapply Forall_impl; [exact Hr |]. intros x [Hkx _]. by transitivity k.
Qed.

(** *** Building a tree key by key *)

Lemma insert_is_tree t fuel r d σ :
  is_tree (heap σ) r t → height t < fuel →
  ∃ σ', insert R fuel r d σ
          = Done (root (spec_insert R (fresh (dom (heap σ))) d t)) σ' ∧
        is_tree (heap σ') (root (spec_insert R (fresh (dom (heap σ))) d t))
          (spec_insert R (fresh (dom (heap σ))) d t) ∧
        console σ' = console σ.
Proof.
  intros [Hrep Hnd] Hfuel.
  destruct (insert_sound t fuel r d σ Hrep Hnd Hfuel)
    as (σ' & Hrun & Hrep' & Hcon & _ & _).
  exists σ'. refine (conj Hrun (conj (conj Hrep' _) Hcon)).
  apply NoDup_spec_insert; [| done].
  intros Hin. apply (is_fresh (dom (heap σ))), elem_of_dom.
  exact (repr_allocated _ _ _ _ Hrep Hin).
Qed.

Lemma forEach_sound ks : ∀ fuel r σ t,
  is_tree (heap σ) r t → height t + length ks < fuel →
  ∃ r' σ' t',
    forEach_insert R fuel ks r σ = Done r' σ' ∧
    is_tree (heap σ') r' t' ∧
    console σ' = console σ ∧
    inorder t' ≡ₚ ks ++ inorder t ∧
    size t' = length ks + size t ∧
    height t' ≤ height t + length ks ∧
    (Total R → bst R t → bst R t').
Proof.
  induction ks as [|key rest IH]; intros fuel r σ t Htree Hfuel.
  - exists r, σ, t.
    refine (conj eq_refl (conj Htree (conj eq_refl (conj _ (conj _ (conj _ _))))));
      simpl; [done | done | lia | auto].
  - simpl in Hfuel.
    destruct (insert_is_tree t fuel r key σ Htree ltac:(lia))
      as (σ1 & Hrun & Htree1 & Hcon1).
    set (t1 := spec_insert R (fresh (dom (heap σ))) key t) in *.
    assert (Hh1 : height t1 ≤ S (height t)) by apply height_spec_insert.
    destruct (IH fuel (root t1) σ1 t1 Htree1 ltac:(lia))
      as (r' & σ' & t' & Hrun' & Htree' & Hcon' & Hperm & Hsize & Hheight & Hbst).
    exists r', σ', t'. rewrite [forEach_insert _ _ _ _]/=.
    rewrite (bind_Done _ _ _ _ _ Hrun).
    refine (conj Hrun' (conj Htree' (conj _ (conj _ (conj _ (conj _ _)))))).
    + by rewrite Hcon'.
    + rewrite Hperm /t1 inorder_spec_insert. simpl.
      by rewrite -Permutation_middle.
    + rewrite Hsize /t1 size_spec_insert. simpl. lia.
    + simpl. lia.
    + intros HT Hb. apply (Hbst HT). by apply bst_spec_insert.
Qed.

Lemma forEach_from_null ks fuel σ :
  length ks < fuel →
  ∃ r' σ' t',
    forEach_insert R fuel ks null σ = Done r' σ' ∧
    is_tree (heap σ') r' t' ∧
    console σ' = console σ ∧
    inorder t' ≡ₚ ks ∧
    size t' = length ks ∧
    height t' < fuel ∧
    (Total R → bst R t').
Proof.
  intros Hfuel.
  destruct (forEach_sound ks fuel null σ Leaf) as
    (r' & σ' & t' & Hrun & Htree & Hcon & Hperm & Hsize & Hheight & Hbst).
  { split; [done | constructor]. }
  { simpl. lia. }
  exists r', σ', t'. simpl in *. rewrite app_nil_r in Hperm.
  refine (conj Hrun (conj Htree (conj Hcon (conj Hperm (conj _ (conj _ _)))))).
  - lia.
  - lia.
  - intros HT. by apply Hbst.
Qed.

(** *** Readers never write, whatever the store looks like *)

Lemma bind_inv {A B} (m : M K A) (f : A → M K B) σ b σ' :
  (m ≫= f) σ = Done b σ' → ∃ a σ1, m σ = Done a σ1 ∧ f a σ1 = Done b σ'.
Proof.
  rewrite /mbind /M_bind. destruct (m σ) as [a σ1 |]; [| done]. eauto.
Qed.

Lemma preserves_heap_bind {A B} (m : M K A) (f : A → M K B) :
  preserves_heap m → (∀ a, preserves_heap (f a)) → preserves_heap (m ≫= f).
Proof.
  intros Hm Hf σ b σ' (a & σ1 & H1 & H2)%bind_inv.
  rewrite (Hf _ _ _ _ H2). eauto.
Qed.

Lemma preserves_state_bind {A B} (m : M K A) (f : A → M K B) :
  preserves_state m → (∀ a, preserves_state (f a)) → preserves_state (m ≫= f).
Proof.
  intros Hm Hf σ b σ' (a & σ1 & H1 & H2)%bind_inv.
  rewrite (Hf _ _ _ _ H2). eauto.
Qed.

Lemma preserves_state_heap {A} (m : M K A) :
  preserves_state m → preserves_heap m.
Proof. intros Hm σ a σ' Hrun. by rewrite (Hm _ _ _ Hrun). Qed.

Lemma preserves_state_ret {A} (a : A) : preserves_state (mret a : M K A).
Proof. intros σ a' σ' [= _ <-]. done. Qed.

Lemma preserves_state_throw {A} e : preserves_state (throw e : M K A).
Proof. intros σ a' σ'. done. Qed.

Lemma preserves_state_read {A} (field : Node K → A) r :
  preserves_state (read field r).
Proof.
  intros σ a σ'. rewrite /read. destruct r as [| | l]; try done.
  destruct (heap σ !! l); [| done]. by intros [= _ <-].
Qed.

Lemma preserves_heap_log k : preserves_heap (console_log k).
Proof. by intros σ a σ' [= _ <-]. Qed.

Create HintDb readers.
Local Hint Resolve preserves_state_ret preserves_state_throw
  preserves_state_read preserves_heap_log preserves_state_heap : readers.

Lemma inOrder_preserves_heap fuel : ∀ r, preserves_heap (inOrder (K:=K) fuel r).
Proof.
  induction fuel as [|fuel IH]; intros r; simpl; [auto with readers |].
  destruct (loose_null r); [auto with readers |].
  repeat (apply preserves_heap_bind; [| intros ?]); auto with readers.
Qed.

Lemma preOrder_preserves_heap fuel : ∀ r, preserves_heap (preOrder (K:=K) fuel r).
Proof.
  induction fuel as [|fuel IH]; intros r; simpl; [auto with readers |].
  destruct (loose_null r); [auto with readers |].
  repeat (apply preserves_heap_bind; [| intros ?]); auto with readers.
Qed.

Lemma postOrder_preserves_heap fuel : ∀ r, preserves_heap (postOrder (K:=K) fuel r).
Proof.
  induction fuel as [|fuel IH]; intros r; simpl; [auto with readers |].
  destruct (loose_null r); [auto with readers |].
  repeat (apply preserves_heap_bind; [| intros ?]); auto with readers.
Qed.

Lemma count_preserves_state fuel : ∀ r, preserves_state (count (K:=K) fuel r).
Proof.
  induction fuel as [|fuel IH]; intros r; simpl; [auto with readers |].
  destruct (loose_null r); [auto with readers |].
  repeat (apply preserves_state_bind; [| intros ?]); auto with readers.
Qed.

Lemma min_loop_preserves_state fuel :
  ∀ r (minValue : K), preserves_state (min_loop fuel r minValue).
Proof.
  induction fuel as [|fuel IH]; intros r mv; simpl; [auto with readers |].
  apply preserves_state_bind; [auto with readers |]. intros l.
  destruct (strict_null l); [auto with readers |].
  repeat (apply preserves_state_bind; [auto with readers | intros ?]).
  apply IH.
Qed.

Lemma min_preserves_state fuel r : preserves_state (min (K:=K) fuel r).
Proof.
  rewrite /min. destruct (strict_null r); [auto with readers |].
  apply preserves_state_bind; [auto with readers |].
  intros ?. apply min_loop_preserves_state.
Qed.

(** *** More fuel never changes a result *)

Lemma approx_refl {A} (m : M K A) : approx m m.
Proof. by intros σ a σ'. Qed.

Lemma approx_throw {A} e (m : M K A) : approx (throw e) m.
Proof. by intros σ a σ'. Qed.

Lemma approx_bind {A B} (m1 m2 : M K A) (f1 f2 : A → M K B) :
  approx m1 m2 → (∀ a, approx (f1 a) (f2 a)) → approx (m1 ≫= f1) (m2 ≫= f2).
Proof.
  intros Hm Hf σ b σ' (a & σ1 & H1 & H2)%bind_inv.
  rewrite (bind_Done _ _ _ _ _ (Hm _ _ _ H1)). by apply Hf.
Qed.

Create HintDb fuel.
Local Hint Resolve approx_refl approx_throw : fuel.

Lemma insert_fuel_mono fuel : ∀ fuel' r d,
  fuel ≤ fuel' → approx (insert R fuel r d) (insert R fuel' r d).
Proof.
  induction fuel as [|fuel IH]; intros [|fuel'] r d Hle; simpl;
    [auto with fuel | auto with fuel | lia |].
  destruct (loose_null r); [auto with fuel |].
  apply approx_bind; [auto with fuel |]. intros nd.
  destruct (decide (R d nd));
    (apply approx_bind; [auto with fuel |]; intros ?;
     apply approx_bind; [apply IH; lia | auto with fuel]).
Qed.

Lemma forEach_fuel_mono ks : ∀ fuel fuel' r,
  fuel ≤ fuel' →
  approx (forEach_insert R fuel ks r) (forEach_insert R fuel' ks r).
Proof.
  induction ks as [|key rest IH]; intros fuel fuel' r Hle; simpl;
    [auto with fuel |].
  apply approx_bind; [by apply insert_fuel_mono |]. intros ?. by apply IH.
Qed.

Lemma inOrder_fuel_mono fuel : ∀ fuel' r,
  fuel ≤ fuel' → approx (inOrder (K:=K) fuel r) (inOrder fuel' r).
Proof.
  induction fuel as [|fuel IH]; intros [|fuel'] r Hle; simpl;
    [auto with fuel | auto with fuel | lia |].
  destruct (loose_null r); [auto with fuel |].
  repeat (apply approx_bind; [first [apply IH; lia | auto with fuel] | intros ?]).
  auto with fuel.
Qed.

Lemma count_fuel_mono fuel : ∀ fuel' r,
  fuel ≤ fuel' → approx (count (K:=K) fuel r) (count fuel' r).
Proof.
  induction fuel as [|fuel IH]; intros [|fuel'] r Hle; simpl;
    [auto with fuel | auto with fuel | lia |].
  destruct (loose_null r); [auto with fuel |].
  repeat (apply approx_bind; [first [apply IH; lia | auto with fuel] | intros ?]).
  auto with fuel.
Qed.

Lemma min_loop_fuel_mono fuel : ∀ fuel' r (minValue : K),
  fuel ≤ fuel' → approx (min_loop fuel r minValue) (min_loop fuel' r minValue).
Proof.
  induction fuel as [|fuel IH]; intros [|fuel'] r mv Hle; simpl;
    [auto with fuel | auto with fuel | lia |].
  apply approx_bind; [auto with fuel |]. intros l.
  destruct (strict_null l); [auto with fuel |].
  repeat (apply approx_bind; [auto with fuel | intros ?]). apply IH. lia.
Qed.

Lemma min_fuel_mono fuel fuel' r :
  fuel ≤ fuel' → approx (min (K:=K) fuel r) (min fuel' r).
Proof.
  intros Hle. rewrite /min. destruct (strict_null r); [auto with fuel |].
  apply approx_bind; [auto with fuel |]. intros ?.
  by apply min_loop_fuel_mono.
Qed.

(** *** The module's guarantees *)

(** C1: whatever keys are inserted one at a time into the empty tree, the
    tree is built without error and [inOrder] then prints exactly those keys,
    in non-decreasing order. *)
Theorem inOrder_of_inserted_keys_sorted `{!Total R, !Transitive R} ks fuel σ :
  length ks < fuel →
  ∃ root σ1 v σ2 out,
    forEach_insert R fuel ks null σ = Done root σ1 ∧
    inOrder fuel root σ1 = Done v σ2 ∧
    console σ2 = console σ ++ out ∧
    Sorted R out ∧
    out ≡ₚ ks.
Proof.
  intros Hfuel.
  destruct (forEach_from_null ks fuel σ Hfuel)
    as (root & σ1 & t & Hrun & [Hrep _] & Hcon & Hperm & _ & Hheight & Hbst).
  exists root, σ1, (traversal_result t), (mkState (heap σ1) (console σ1 ++ inorder t)),
    (inorder t).
  refine (conj Hrun (conj (inOrder_sound t fuel root σ1 Hrep Hheight) _)).
  simpl. rewrite Hcon. refine (conj eq_refl (conj _ Hperm)).
  apply StronglySorted_Sorted, bst_inorder_sorted; auto.
Qed.

(** C2: [insert] keeps the ordering invariant: on a tree in which every left
    key is [<=] and every right key is [>] its node's key, inserting any key
    returns a tree with the same property. *)
Theorem insert_preserves_bst `{!Total R} σ r t key fuel :
  is_tree (heap σ) r t → bst R t → height t < fuel →
  ∃ r' σ' t',
    insert R fuel r key σ = Done r' σ' ∧
    is_tree (heap σ') r' t' ∧
    bst R t'.
Proof.
  intros Htree Hbst Hfuel.
  destruct (insert_is_tree t fuel r key σ Htree Hfuel) as (σ' & Hrun & Htree' & _).
  eexists _, σ', _. refine (conj Hrun (conj Htree' _)).
  by apply bst_spec_insert.
Qed.

(** C3: [insert] on the heap does what the specification's insertion says.
    It always returns (duplicates included); the empty root yields a fresh
    single node with both links empty; a non-empty root keeps its identity
    and receives the key in its left subtree when [key <= root.data] (so an
    equal key goes left) and in its right subtree otherwise. *)
Theorem insert_refines_spec `{!Reflexive R} σ r t key fuel :
  is_tree (heap σ) r t → height t < fuel →
  ∃ new σ' t',
    insert R fuel r key σ = Done (root t') σ' ∧
    is_tree (heap σ') (root t') t' ∧
    heap σ !! new = None ∧
    t' = spec_insert R new key t ∧
    (t = Leaf → t' = Tree new Leaf key Leaf) ∧
    (∀ l, r = ptr l → root t' = ptr l) ∧
    (∀ l tl k tr, t = Tree l tl k tr → R key k →
       t' = Tree l (spec_insert R new key tl) k tr) ∧
    (∀ l tl k tr, t = Tree l tl k tr → ¬ R key k →
       t' = Tree l tl k (spec_insert R new key tr)) ∧
    (∀ l tl tr, t = Tree l tl key tr →
       t' = Tree l (spec_insert R new key tl) key tr).
Proof.
  intros Htree Hfuel.
  destruct (insert_is_tree t fuel r key σ Htree Hfuel) as (σ' & Hrun & Htree' & _).
  exists (fresh (dom (heap σ))), σ', (spec_insert R (fresh (dom (heap σ))) key t).
  refine (conj Hrun (conj Htree' (conj _ (conj eq_refl _)))).
  { apply not_elem_of_dom, is_fresh. }
  destruct Htree as [Hrep _]. repeat split.
  - by intros ->.
  - intros l ->. destruct t as [|l0 tl k tr]; [done |].
    destruct Hrep as [[= <-] _]. apply root_spec_insert.
  - intros l tl k tr -> Hle. simpl. by rewrite decide_True.
  - intros l tl k tr -> Hgt. simpl. by rewrite decide_False.
  - intros l tl tr ->. simpl. by rewrite decide_True.
Qed.

(** C4: [min] of the empty tree is [null], returned and not thrown; on a
    non-empty tree it is the key at the end of the left spine; and after any
    non-empty sequence of inserts into the empty tree it is a smallest of the
    inserted keys. *)
Theorem min_spec `{!Total R, !Transitive R} σ r t fuel ks fuel' :
  repr (heap σ) r t → height t < fuel → ks ≠ [] → length ks < fuel' →
  min fuel null σ = Done VNull σ ∧
  min fuel r σ = Done (min_of t) σ ∧
  (∀ l tl k tr, t = Tree l tl k tr → min_of t = VData (leftmost tl k)) ∧
  ∃ root σ' m,
    forEach_insert R fuel' ks null σ = Done root σ' ∧
    min fuel' root σ' = Done (VData m) σ' ∧
    is_minimum R m ks.
Proof.
  intros Hrep Hfuel Hks Hfuel'.
  refine (conj eq_refl (conj (min_sound t fuel r σ Hrep Hfuel) (conj _ _))).
  { by intros l tl k tr ->. }
  destruct (forEach_from_null ks fuel' σ Hfuel')
    as (root & σ' & t' & Hrun & [Hrep' _] & _ & Hperm & _ & Hheight & Hbst).
  destruct t' as [|l tl k tr].
  { apply Permutation_nil_l in Hperm. by subst ks. }
  exists root, σ', (leftmost tl k).
  refine (conj Hrun (conj (min_sound _ fuel' root σ' Hrep' Hheight) _)).
  split.
  - rewrite -Hperm. apply leftmost_elem.
  - rewrite -Hperm. apply leftmost_least. auto.
Qed.

(** C5: [count] is the number of nodes, 0 for the empty tree and one more
    than the counts of the two subtrees otherwise, whatever the keys are;
    after inserting [n] keys into the empty tree it is [n]. *)
Theorem count_spec σ r t fuel ks fuel' :
  repr (heap σ) r t → height t < fuel → length ks < fuel' →
  count fuel null σ = Done 0 σ ∧
  count fuel r σ = Done (size t) σ ∧
  (∀ σ2 r2 t2, repr (heap σ2) r2 t2 → same_shape t t2 →
     count fuel r2 σ2 = Done (size t) σ2) ∧
  ∃ root σ',
    forEach_insert R fuel' ks null σ = Done root σ' ∧
    count fuel' root σ' = Done (length ks) σ'.
Proof.
  intros Hrep Hfuel Hfuel'.
  assert (Hshape : ∀ t1 t2 : tree K,
    same_shape t1 t2 → size t2 = size t1 ∧ height t2 = height t1).
  { induction t1 as [|? ? IH1 ? ? IH2]; intros [|? tl2 ? tr2]; simpl; try done.
    intros [H1 H2]. destruct (IH1 _ H1), (IH2 _ H2). lia. }
  refine (conj _ (conj (count_sound t fuel r σ Hrep Hfuel) (conj _ _))).
  - destruct fuel; [lia | done].
  - intros σ2 r2 t2 Hrep2 [Hs Hh]%Hshape. rewrite -Hs.
    apply count_sound; [done | lia].
  - destruct (forEach_from_null ks fuel' σ Hfuel')
      as (root & σ' & t' & Hrun & [Hrep' _] & _ & _ & Hsize & Hheight & _).
    exists root, σ'. split; [done |]. rewrite -Hsize. by apply count_sound.
Qed.

(** C6: [inOrder] prints the keys left-root-right, [preOrder] root-left-right
    and [postOrder] left-right-root; on the empty tree each prints nothing. *)
Theorem traversal_orders σ r t fuel :
  repr (heap σ) r t → height t < fuel →
  inOrder fuel r σ
    = Done (traversal_result t) (mkState (heap σ) (console σ ++ inorder t)) ∧
  preOrder fuel r σ
    = Done (traversal_result t) (mkState (heap σ) (console σ ++ preorder t)) ∧
  postOrder fuel r σ
    = Done (traversal_result t) (mkState (heap σ) (console σ ++ postorder t)) ∧
  inOrder fuel null σ = Done null σ ∧
  preOrder fuel null σ = Done null σ ∧
  postOrder fuel null σ = Done null σ.
Proof.
  intros Hrep Hfuel.
  refine (conj (inOrder_sound t fuel r σ Hrep Hfuel)
         (conj (preOrder_sound t fuel r σ Hrep Hfuel)
         (conj (postOrder_sound t fuel r σ Hrep Hfuel) _))).
  destruct fuel; [lia | done].
Qed.

(** C7: the three traversals are read-only: each returns, and the store
    afterwards (every node's [data], [left] and [right]) is the store before. *)
Theorem traversals_read_only σ r t fuel :
  repr (heap σ) r t → height t < fuel →
  ∃ v1 σ1 v2 σ2 v3 σ3,
    inOrder fuel r σ = Done v1 σ1 ∧ heap σ1 = heap σ ∧
    preOrder fuel r σ = Done v2 σ2 ∧ heap σ2 = heap σ ∧
    postOrder fuel r σ = Done v3 σ3 ∧ heap σ3 = heap σ.
Proof.
  intros Hrep Hfuel.
  pose proof (inOrder_sound t fuel r σ Hrep Hfuel) as H1.
  pose proof (preOrder_sound t fuel r σ Hrep Hfuel) as H2.
  pose proof (postOrder_sound t fuel r σ Hrep Hfuel) as H3.
  eexists _, _, _, _, _, _.
  refine (conj H1 (conj _ (conj H2 (conj _ (conj H3 _))))).
  - exact (inOrder_preserves_heap fuel r _ _ _ H1).
  - exact (preOrder_preserves_heap fuel r _ _ _ H2).
  - exact (postOrder_preserves_heap fuel r _ _ _ H3).
Qed.

(** C8: a traversal run twice in a row, with no insert in between, prints the
    same sequence of keys both times. *)
Theorem traversal_idempotent σ r t fuel :
  repr (heap σ) r t → height t < fuel →
  prints_twice (inOrder fuel r) σ (inorder t) ∧
  prints_twice (preOrder fuel r) σ (preorder t) ∧
  prints_twice (postOrder fuel r) σ (postorder t).
Proof.
  intros Hrep Hfuel. split_and!.
  - eexists _, _, _, _.
    refine (conj (inOrder_sound t fuel r σ Hrep Hfuel) (conj eq_refl
           (conj (inOrder_sound t fuel r (mkState (heap σ) (console σ ++ inorder t))
                    Hrep Hfuel) eq_refl))).
  - eexists _, _, _, _.
    refine (conj (preOrder_sound t fuel r σ Hrep Hfuel) (conj eq_refl
           (conj (preOrder_sound t fuel r (mkState (heap σ) (console σ ++ preorder t))
                    Hrep Hfuel) eq_refl))).
  - eexists _, _, _, _.
    refine (conj (postOrder_sound t fuel r σ Hrep Hfuel) (conj eq_refl
           (conj (postOrder_sound t fuel r (mkState (heap σ) (console σ ++ postorder t))
                    Hrep Hfuel) eq_refl))).
Qed.

(** C10: [min] is read-only: it returns, and the store afterwards is the
    store before. *)
Theorem min_read_only σ r t fuel :
  repr (heap σ) r t → height t < fuel →
  ∃ v σ', min fuel r σ = Done v σ' ∧ heap σ' = heap σ.
Proof.
  intros Hrep Hfuel.
  pose proof (min_sound t fuel r σ Hrep Hfuel) as Hrun.
  eexists _, _. split; [exact Hrun |].
  exact (f_equal heap (min_preserves_state fuel r _ _ _ Hrun)).
Qed.

(** *** What [insert] does to a store of any shape *)

Lemma read_inv {A} (field : Node K → A) r σ a σ' :
  read field r σ = Done a σ' →
  ∃ l n, r = ptr l ∧ heap σ !! l = Some n ∧ a = field n ∧ σ' = σ.
Proof.
  rewrite /read. destruct r as [| | l]; try done.
  destruct (heap σ !! l) as [n |] eqn:Hn; [| done].
  intros [= <- <-]. by exists l, n.
Qed.

Lemma write_inv (upd : Node K → Node K) r σ u σ' :
  write upd r σ = Done u σ' →
  ∃ l n, r = ptr l ∧ heap σ !! l = Some n ∧
         σ' = mkState (<[l := upd n]> (heap σ)) (console σ).
Proof.
  rewrite /write. destruct r as [| | l]; try done.
  destruct (heap σ !! l) as [n |] eqn:Hn; [| done].
  intros [= _ <-]. by exists l, n.
Qed.

(** X2: whenever [insert] returns, on a store of any shape: nothing was
    printed; exactly one object was allocated, holding the key with both
    links [null]; a root that was an object is returned as it is and an
    absent root is replaced by the new object; and every object of the old
    store is still there with the same key and the same non-empty links. *)
Theorem insert_effect fuel : ∀ r d σ r' σ',
  insert R fuel r d σ = Done r' σ' →
  console σ' = console σ ∧
  dom (heap σ') = {[fresh (dom (heap σ))]} ∪ dom (heap σ) ∧
  heap σ' !! fresh (dom (heap σ)) = Some (mkNode null null d) ∧
  (∀ l, r = ptr l → r' = ptr l) ∧
  (loose_null r = true → r' = ptr (fresh (dom (heap σ)))) ∧
  (∀ l n, heap σ !! l = Some n →
     ∃ n', heap σ' !! l = Some n' ∧ node_kept n n').
Proof.
  induction fuel as [|fuel IH]; intros r d σ r' σ' Hrun; [done |].
  pose proof (is_fresh (dom (heap σ))) as Hfresh.
  set (new := fresh (dom (heap σ))) in *.
  simpl in Hrun. destruct (loose_null r) eqn:Hnull.
  - (* allocation *)
    injection Hrun as <- <-. simpl. fold new.
    refine (conj eq_refl (conj _ (conj _ (conj _ (conj _ _))))).
    + by rewrite dom_insert_L.
    + apply lookup_insert_eq.
    + intros l ->. done.
    + done.
    + intros l n Hn. exists n. split; [| done].
      rewrite lookup_insert_ne; [done |].
      intros <-. apply Hfresh, elem_of_dom. by eexists.
  - (* descent and reattachment *)
    apply bind_inv in Hrun as (nd & σ0 & Hread & Hrun).
    apply read_inv in Hread as (l0 & n0 & -> & Hn0 & -> & ->).
    assert (Hl0 : l0 ≠ new).
    { intros Heq. apply Hfresh, elem_of_dom. rewrite -Heq. by eexists. }
    destruct (decide (R d (data n0))) as [Hle | Hgt].
    + apply bind_inv in Hrun as (c & σ1 & Hread & Hrun).
      apply read_inv in Hread as (? & ? & [= <-] & Hn0' & -> & ->).
      rewrite Hn0 in Hn0'. injection Hn0' as <-.
      apply bind_inv in Hrun as (c' & σ1 & Hrec & Hrun).
      apply bind_inv in Hrun as (u & σ2 & Hwrite & Hret).
      injection Hret as <- <-.
      apply write_inv in Hwrite as (? & n1 & [= <-] & Hn1 & ->).
      destruct (IH _ _ _ _ _ Hrec) as (Hcon & Hdom & Hnew & Hid & _ & Hkept).
      fold new in Hdom, Hnew. simpl.
      refine (conj Hcon (conj _ (conj _ (conj _ (conj _ _))))).
      * rewrite dom_insert_L Hdom.
        assert (l0 ∈ dom (heap σ)) by (apply elem_of_dom; by eexists).
        set_solver.
      * rewrite lookup_insert_ne; [done | done].
      * by intros l [= <-].
      * done.
      * intros l n Hn. destruct (decide (l = l0)) as [-> | Hne].
        -- rewrite Hn0 in Hn. injection Hn as <-.
           destruct (Hkept _ _ Hn0) as (n1' & Hn1' & Hd & Hl & Hr).
           rewrite Hn1 in Hn1'. injection Hn1' as <-.
           eexists. split; [apply lookup_insert_eq |].
           split; [done |]. split; [| done].
           simpl. intros c0 Hc0. by apply Hid.
        -- destruct (Hkept _ _ Hn) as (n' & Hn' & Hk).
           exists n'. split; [| done]. by rewrite lookup_insert_ne.
    + apply bind_inv in Hrun as (c & σ1 & Hread & Hrun).
      apply read_inv in Hread as (? & ? & [= <-] & Hn0' & -> & ->).
      rewrite Hn0 in Hn0'. injection Hn0' as <-.
      apply bind_inv in Hrun as (c' & σ1 & Hrec & Hrun).
      apply bind_inv in Hrun as (u & σ2 & Hwrite & Hret).
      injection Hret as <- <-.
      apply write_inv in Hwrite as (? & n1 & [= <-] & Hn1 & ->).
      destruct (IH _ _ _ _ _ Hrec) as (Hcon & Hdom & Hnew & Hid & _ & Hkept).
      fold new in Hdom, Hnew. simpl.
      refine (conj Hcon (conj _ (conj _ (conj _ (conj _ _))))).
      * rewrite dom_insert_L Hdom.
        assert (l0 ∈ dom (heap σ)) by (apply elem_of_dom; by eexists).
        set_solver.
      * rewrite lookup_insert_ne; [done | done].
      * by intros l [= <-].
      * done.
      * intros l n Hn. destruct (decide (l = l0)) as [-> | Hne].
        -- rewrite Hn0 in Hn. injection Hn as <-.
           destruct (Hkept _ _ Hn0) as (n1' & Hn1' & Hd & Hl & Hr).
           rewrite Hn1 in Hn1'. injection Hn1' as <-.
           eexists. split; [apply lookup_insert_eq |].
           split; [done |]. split; [done |].
           simpl. intros c0 Hc0. by apply Hid.
        -- destruct (Hkept _ _ Hn) as (n' & Hn' & Hk).
           exists n'. split; [| done]. by rewrite lookup_insert_ne.
Qed.

(** *** Absent markers *)


(** *** Readers on a store of any shape *)

Lemma extends_console_bind {A B} (m : M K A) (f : A → M K B) :
  extends_console m → (∀ a, extends_console (f a)) →
  extends_console (m ≫= f).
Proof.
  intros Hm Hf σ b σ' (a & σ1 & H1 & H2)%bind_inv.
  destruct (Hm _ _ _ H1) as [out1 E1]. destruct (Hf _ _ _ _ H2) as [out2 E2].
  exists (out1 ++ out2). by rewrite E2 E1 app_assoc.
Qed.

Lemma preserves_state_extends {A} (m : M K A) :
  preserves_state m → extends_console m.
Proof.
  intros Hm σ a σ' Hrun. exists []. by rewrite (Hm _ _ _ Hrun) app_nil_r.
Qed.

Lemma extends_console_log k : extends_console (console_log k).
Proof. intros σ a σ' [= _ <-]. by exists [k]. Qed.

Local Hint Resolve preserves_state_extends extends_console_log : readers.

Lemma inOrder_extends_console fuel :
  ∀ r, extends_console (inOrder (K:=K) fuel r).
Proof.
  induction fuel as [|fuel IH]; intros r; simpl; [auto with readers |].
  destruct (loose_null r); [auto with readers |].
  repeat (apply extends_console_bind; [| intros ?]); auto with readers.
Qed.

Lemma preOrder_extends_console fuel :
  ∀ r, extends_console (preOrder (K:=K) fuel r).
Proof.
  induction fuel as [|fuel IH]; intros r; simpl; [auto with readers |].
  destruct (loose_null r); [auto with readers |].
  repeat (apply extends_console_bind; [| intros ?]); auto with readers.
Qed.

Lemma postOrder_extends_console fuel :
  ∀ r, extends_console (postOrder (K:=K) fuel r).
Proof.
  induction fuel as [|fuel IH]; intros r; simpl; [auto with readers |].
  destruct (loose_null r); [auto with readers |].
  repeat (apply extends_console_bind; [| intros ?]); auto with readers.
Qed.

(** X3: on a store of any shape, shared or cyclic links included, a call
    that returns has written nothing: the traversals leave every object as it
    was and only add lines to the console; [count] and [min] leave store and
    console as they were. *)
Theorem readers_never_write fuel r :
  preserves_heap (inOrder (K:=K) fuel r) ∧
  extends_console (inOrder (K:=K) fuel r) ∧
  preserves_heap (preOrder (K:=K) fuel r) ∧
  extends_console (preOrder (K:=K) fuel r) ∧
  preserves_heap (postOrder (K:=K) fuel r) ∧
  extends_console (postOrder (K:=K) fuel r) ∧
  preserves_state (count (K:=K) fuel r) ∧
  preserves_state (min (K:=K) fuel r).
Proof.
  split_and!.
  - apply inOrder_preserves_heap.
  - apply inOrder_extends_console.
  - apply preOrder_preserves_heap.
  - apply preOrder_extends_console.
  - apply postOrder_preserves_heap.
  - apply postOrder_extends_console.
  - apply count_preserves_state.
  - apply min_preserves_state.
Qed.

(** *** How the readers agree with each other *)

Lemma preorder_inorder t : preorder t ≡ₚ inorder t.
Proof.
  induction t as [|l tl IHl k tr IHr]; simpl; [done |].
  by rewrite IHl IHr -Permutation_middle.
Qed.

Lemma postorder_inorder t : postorder t ≡ₚ inorder t.
Proof.
  induction t as [|l tl IHl k tr IHr]; simpl; [done |].
  rewrite IHl IHr -Permutation_middle.
  by rewrite (Permutation_app_comm (inorder tr)) /= (Permutation_app_comm (inorder tl)).
Qed.

Lemma length_inorder t : length (inorder t) = size t.
Proof.
  induction t as [|l tl IHl k tr IHr]; simpl; [done |].
  rewrite length_app /=. lia.
Qed.

Lemma inorder_head l tl k tr :
  ∃ rest, inorder (Tree l tl k tr) = leftmost tl k :: rest.
Proof.
  revert l k tr. induction tl as [|l' tl' IHl k' tr' _]; intros l k tr; simpl.
  - by eexists.
  - destruct (IHl l' k' tr') as [rest Hrest]. simpl in Hrest.
    rewrite Hrest. by eexists.
Qed.

(** X4: the three traversals print the same keys, each as often as the
    others, in their different orders, and [count] is how many lines each of
    them prints. *)
Theorem traversals_print_same_keys σ r t fuel :
  repr (heap σ) r t → height t < fuel →
  ∃ v o_in o_pre o_post n,
    inOrder fuel r σ = Done v (mkState (heap σ) (console σ ++ o_in)) ∧
    preOrder fuel r σ = Done v (mkState (heap σ) (console σ ++ o_pre)) ∧
    postOrder fuel r σ = Done v (mkState (heap σ) (console σ ++ o_post)) ∧
    count fuel r σ = Done n σ ∧
    o_pre ≡ₚ o_in ∧ o_post ≡ₚ o_in ∧
    length o_in = n ∧ length o_pre = n ∧ length o_post = n.
Proof.
  intros Hrep Hfuel.
  exists (traversal_result t), (inorder t), (preorder t), (postorder t), (size t).
  refine (conj (inOrder_sound t fuel r σ Hrep Hfuel)
         (conj (preOrder_sound t fuel r σ Hrep Hfuel)
         (conj (postOrder_sound t fuel r σ Hrep Hfuel)
         (conj (count_sound t fuel r σ Hrep Hfuel) _)))).
  split_and!.
  - apply preorder_inorder.
  - apply postorder_inorder.
  - apply length_inorder.
  - by rewrite preorder_inorder length_inorder.
  - by rewrite postorder_inorder length_inorder.
Qed.

(** X5: on any non-empty tree, ordered or not, [min] returns the key that
    [inOrder] prints first. *)
Theorem min_is_first_printed σ l t fuel :
  repr (heap σ) (ptr l) t → height t < fuel →
  ∃ m rest,
    min fuel (ptr l) σ = Done (VData m) σ ∧
    inOrder fuel (ptr l) σ
      = Done undefined (mkState (heap σ) (console σ ++ m :: rest)).
Proof.
  intros Hrep Hfuel. destruct t as [|l0 tl k tr]; [done |].
  destruct (inorder_head l0 tl k tr) as [rest Hrest].
  exists (leftmost tl k), rest. split.
  - exact (min_sound _ fuel (ptr l) σ Hrep Hfuel).
  - rewrite -Hrest. exact (inOrder_sound _ fuel (ptr l) σ Hrep Hfuel).
Qed.

(** *** Reading a tree before and after one [insert] *)

(** X6: one [insert] makes [count] one larger, whatever the key. *)
Theorem count_after_insert σ r t d fuel :
  is_tree (heap σ) r t → height t < fuel →
  ∃ n r' σ',
    count fuel r σ = Done n σ ∧
    insert R fuel r d σ = Done r' σ' ∧
    count (S fuel) r' σ' = Done (S n) σ'.
Proof.
  intros Htree Hfuel.
  destruct (insert_is_tree t fuel r d σ Htree Hfuel)
    as (σ' & Hrun & [Hrep' _] & _).
  set (t' := spec_insert R (fresh (dom (heap σ))) d t) in *.
  exists (size t), (root t'), σ'.
  refine (conj (count_sound t fuel r σ (proj1 Htree) Hfuel) (conj Hrun _)).
  rewrite -(size_spec_insert (fresh (dom (heap σ))) d t).
  apply count_sound; [done |].
  pose proof (height_spec_insert (fresh (dom (heap σ))) d t) as Hh.
  subst t'. lia.
Qed.

Lemma inorder_spec_insert_split `{!Transitive R} new d t :
  bst R t →
  ∃ before after,
    inorder t = before ++ after ∧
    inorder (spec_insert R new d t) = before ++ d :: after ∧
    Forall (λ x, ¬ R d x) before ∧
    Forall (R d) after.
Proof.
  induction t as [|l tl IHl k tr IHr]; simpl.
  - intros _. exists [], []. by repeat split.
  - intros (Hl & Hr & Hbl & Hbr).
    destruct (decide (R d k)) as [Hle | Hgt]; simpl.
    + destruct (IHl Hbl) as (b & a & E1 & E2 & Hb & Ha).
      exists b, (a ++ k :: inorder tr).
      rewrite E1 E2 -!app_assoc /=. repeat split; [done |].
      apply Forall_app. split; [done |]. constructor; [done |].
      eapply Forall_impl; [exact Hr |]. intros x [Hkx _]. by transitivity k.
    + destruct (IHr Hbr) as (b & a & E1 & E2 & Hb & Ha).
      exists (inorder tl ++ k :: b), a.
      rewrite E1 E2 -!app_assoc /=. repeat split; [| done].
      apply Forall_app. split; [| by constructor].
      eapply Forall_impl; [exact Hl |]. intros x Hxk Hdx.
      apply Hgt. by transitivity x.
Qed.

(** X7: on an ordered tree, [inOrder] after [insert] prints what it printed
    before with the new key put in at one place: after every key it is not
    [<=] to, and before every key it is [<=] to, its own duplicates
    included. *)
Theorem insert_position_in_inOrder `{!Transitive R} σ r t d fuel :
  is_tree (heap σ) r t → bst R t → height t < fuel →
  ∃ before after v r' σ' v',
    inOrder fuel r σ
      = Done v (mkState (heap σ) (console σ ++ before ++ after)) ∧
    insert R fuel r d σ = Done r' σ' ∧
    inOrder (S fuel) r' σ'
      = Done v' (mkState (heap σ') (console σ' ++ before ++ d :: after)) ∧
    Forall (λ x, ¬ R d x) before ∧
    Forall (R d) after.
Proof.
  intros Htree Hbst Hfuel.
  destruct (insert_is_tree t fuel r d σ Htree Hfuel)
    as (σ' & Hrun & [Hrep' _] & _).
  destruct (inorder_spec_insert_split (fresh (dom (heap σ))) d t Hbst)
    as (b & a & E1 & E2 & Hb & Ha).
  set (t' := spec_insert R (fresh (dom (heap σ))) d t) in *.
  exists b, a, (traversal_result t), (root t'), σ', (traversal_result t').
  rewrite -E1 -E2.
  refine (conj (inOrder_sound t fuel r σ (proj1 Htree) Hfuel)
         (conj Hrun (conj _ (conj Hb Ha)))).
  apply inOrder_sound; [done |].
  pose proof (height_spec_insert (fresh (dom (heap σ))) d t) as Hh.
  subst t'. lia.
Qed.

Lemma min_of_leftmost t k :
  t ≠ Leaf → min_of t = VData (leftmost t k).
Proof. by destruct t. Qed.

Lemma min_of_spec_insert `{!Transitive R} new d t :
  bst R t →
  min_of (spec_insert R new d t) = VData (min_with R d (min_of t)).
Proof.
  destruct t as [|l tl k tr]; [done |].
  revert l k tr. induction tl as [|l' tl' IHl k' tr' _]; intros l k tr Hbst.
  - simpl. by destruct (decide (R d k)).
  - destruct Hbst as (Hl & Hr & Hbl & Hbr).
    change (min_of (Tree l (Tree l' tl' k' tr') k tr))
      with (VData (leftmost tl' k')).
    rewrite [spec_insert _ _ _ (Tree l _ k tr)]/=.
    destruct (decide (R d k)) as [Hle | Hgt].
    + rewrite [min_of _]/=.
      rewrite -(min_of_leftmost (spec_insert R new d (Tree l' tl' k' tr')) k).
      * by rewrite (IHl l' k' tr' Hbl).
      * simpl. by destruct (decide (R d k')).
    + simpl. rewrite decide_False; [done |].
      intros Hdm. apply Hgt. transitivity (leftmost tl' k'); [done |].
      rewrite -> Forall_forall in Hl. apply Hl, leftmost_elem.
Qed.

(** X8: on an ordered tree, [min] after [insert] is the inserted key when
    that key is [<=] the old minimum (or the tree was empty), and the old
    minimum otherwise. *)
Theorem min_after_insert `{!Transitive R} σ r t d fuel :
  is_tree (heap σ) r t → bst R t → height t < fuel →
  ∃ v r' σ',
    min fuel r σ = Done v σ ∧
    insert R fuel r d σ = Done r' σ' ∧
    min (S fuel) r' σ' = Done (VData (min_with R d v)) σ'.
Proof.
  intros Htree Hbst Hfuel.
  destruct (insert_is_tree t fuel r d σ Htree Hfuel)
    as (σ' & Hrun & [Hrep' _] & _).
  set (t' := spec_insert R (fresh (dom (heap σ))) d t) in *.
  exists (min_of t), (root t'), σ'.
  refine (conj (min_sound t fuel r σ (proj1 Htree) Hfuel) (conj Hrun _)).
  rewrite -(min_of_spec_insert (fresh (dom (heap σ))) d t Hbst).
  apply min_sound; [done |].
  pose proof (height_spec_insert (fresh (dom (heap σ))) d t) as Hh.
  subst t'. lia.
Qed.

(** X14: on any tree that satisfies the ordering invariant, however it was
    built, [inOrder] prints a non-decreasing sequence and the key [min]
    returns is [<=] every key printed. *)
Theorem ordered_tree_reads `{!Total R, !Transitive R} σ l t fuel :
  repr (heap σ) (ptr l) t → bst R t → height t < fuel →
  ∃ out m,
    inOrder fuel (ptr l) σ
      = Done undefined (mkState (heap σ) (console σ ++ out)) ∧
    Sorted R out ∧
    min fuel (ptr l) σ = Done (VData m) σ ∧
    m ∈ out ∧
    Forall (R m) out.
Proof.
  intros Hrep Hbst Hfuel. destruct t as [|l0 tl k tr]; [done |].
  exists (inorder (Tree l0 tl k tr)), (leftmost tl k).
  refine (conj (inOrder_sound _ fuel (ptr l) σ Hrep Hfuel) (conj _
         (conj (min_sound _ fuel (ptr l) σ Hrep Hfuel) (conj _ _)))).
  - by apply StronglySorted_Sorted, bst_inorder_sorted.
  - apply leftmost_elem.
  - by apply leftmost_least.
Qed.

(** *** The order of insertion *)

(** X9: when [<=] is a total order, what [inOrder] prints after a series of
    inserts depends on which keys were inserted and how often, not on the
    order they came in. *)
Theorem inOrder_order_independent
    `{!Total R, !Transitive R, !AntiSymm (=) R} ks1 ks2 fuel σ :
  ks1 ≡ₚ ks2 → length ks1 < fuel →
  ∃ out root1 σ1 v1 σ1' root2 σ2 v2 σ2',
    forEach_insert R fuel ks1 null σ = Done root1 σ1 ∧
    inOrder fuel root1 σ1 = Done v1 σ1' ∧
    console σ1' = console σ ++ out ∧
    forEach_insert R fuel ks2 null σ = Done root2 σ2 ∧
    inOrder fuel root2 σ2 = Done v2 σ2' ∧
    console σ2' = console σ ++ out.
Proof.
  intros Hperm Hfuel.
  assert (Hfuel2 : length ks2 < fuel) by by rewrite -Hperm.
  destruct (forEach_from_null ks1 fuel σ Hfuel)
    as (root1 & σ1 & t1 & Hrun1 & [Hrep1 _] & Hcon1 & Hp1 & _ & Hh1 & Hbst1).
  destruct (forEach_from_null ks2 fuel σ Hfuel2)
    as (root2 & σ2 & t2 & Hrun2 & [Hrep2 _] & Hcon2 & Hp2 & _ & Hh2 & Hbst2).
  assert (Heq : inorder t1 = inorder t2).
  { apply (Sorted_unique R).
    - apply StronglySorted_Sorted, bst_inorder_sorted; auto.
    - apply StronglySorted_Sorted, bst_inorder_sorted; auto.
    - by rewrite Hp1 Hp2. }
  exists (inorder t1), root1, σ1, (traversal_result t1),
    (mkState (heap σ1) (console σ1 ++ inorder t1)),
    root2, σ2, (traversal_result t2),
    (mkState (heap σ2) (console σ2 ++ inorder t2)).
  refine (conj Hrun1 (conj (inOrder_sound t1 fuel root1 σ1 Hrep1 Hh1)
         (conj _ (conj Hrun2 (conj (inOrder_sound t2 fuel root2 σ2 Hrep2 Hh2) _))))).
  - simpl. by rewrite Hcon1.
  - simpl. by rewrite Hcon2 Heq.
Qed.

(** *** The arrangement of keys *)

Lemma erase_spec_insert new d t :
  erase (spec_insert R new d t) = key_insert R d (erase t).
Proof.
  induction t as [|l tl IHl k tr IHr]; simpl; [done |].
  case_decide; simpl; congruence.
Qed.

(** Trees with one arrangement of keys read the same. *)
Lemma erase_eq_reads t1 : ∀ t2,
  erase t1 = erase t2 →
  inorder t1 = inorder t2 ∧ preorder t1 = preorder t2 ∧
  postorder t1 = postorder t2 ∧ height t1 = height t2 ∧
  traversal_result t1 = traversal_result t2.
Proof.
  induction t1 as [|l1 tl1 IHl k1 tr1 IHr]; intros [|l2 tl2 k2 tr2]; simpl;
    try done.
  intros [= Hl <- Hr].
  destruct (IHl _ Hl) as (-> & -> & -> & -> & _).
  destruct (IHr _ Hr) as (-> & -> & -> & -> & _). done.
Qed.

Lemma forEach_erase ks : ∀ fuel r σ t,
  is_tree (heap σ) r t → height t + length ks < fuel →
  ∃ r' σ' t',
    forEach_insert R fuel ks r σ = Done r' σ' ∧
    is_tree (heap σ') r' t' ∧
    console σ' = console σ ∧
    erase t' = key_insert_all R ks (erase t) ∧
    height t' ≤ height t + length ks.
Proof.
  induction ks as [|key rest IH]; intros fuel r σ t Htree Hfuel.
  - exists r, σ, t. simpl. repeat split; try done; apply Htree || lia.
  - simpl in Hfuel.
    destruct (insert_is_tree t fuel r key σ Htree ltac:(lia))
      as (σ1 & Hrun & Htree1 & Hcon1).
    pose proof (height_spec_insert (fresh (dom (heap σ))) key t) as Hh1.
    destruct (IH fuel _ σ1 _ Htree1 ltac:(lia))
      as (r' & σ' & t' & Hrun' & Htree' & Hcon' & Herase & Hheight).
    exists r', σ', t'. rewrite [forEach_insert _ _ _ _]/=.
    rewrite (bind_Done _ _ _ _ _ Hrun).
    refine (conj Hrun' (conj Htree' (conj _ (conj _ _)))).
    + by rewrite Hcon'.
    + by rewrite Herase erase_spec_insert.
    + simpl. lia.
Qed.

Lemma filter_all {A} (P : A → Prop) `{!∀ x, Decision (P x)} (xs : list A) :
  Forall P xs → filter P xs = xs.
Proof.
  induction 1 as [|x xs Hx _ IH]; [done |].
  by rewrite filter_cons_True // IH.
Qed.

Lemma filter_none {A} (P : A → Prop) `{!∀ x, Decision (P x)} (xs : list A) :
  Forall (λ x, ¬ P x) xs → filter P xs = [].
Proof.
  induction 1 as [|x xs Hx _ IH]; [done |].
  by rewrite filter_cons_False.
Qed.

(** The two subtrees of a node fill independently: of the keys that arrive,
    those [<=] the node's key build the left one and the rest the right. *)
Lemma key_insert_all_node xs : ∀ a k b,
  key_insert_all R xs (KTree a k b)
  = KTree (key_insert_all R (filter (λ x, R x k) xs) a) k
          (key_insert_all R (filter (λ x, ¬ R x k) xs) b).
Proof.
  induction xs as [|x xs IH]; intros a k b; [done |].
  cbn [key_insert_all key_insert]. destruct (decide (R x k)) as [Hx | Hx].
  - rewrite (filter_cons_True (λ x, R x k)); last done.
    rewrite (filter_cons_False (λ x, ¬ R x k)); last by intros ?.
    apply IH.
  - rewrite (filter_cons_False (λ x, R x k)); last done.
    rewrite (filter_cons_True (λ x, ¬ R x k)); last done.
    apply IH.
Qed.

Lemma key_insert_all_preorder t :
  bst R t → key_insert_all R (preorder t) KLeaf = erase t.
Proof.
  induction t as [|l tl IHl k tr IHr]; [done |].
  intros (Hl & Hr & Hbl & Hbr).
  rewrite -preorder_inorder in Hl. rewrite -preorder_inorder in Hr.
  rewrite [preorder _]/= [key_insert_all _ _ _]/= key_insert_all_node.
  rewrite !filter_app.
  rewrite (filter_all (λ x, R x k) (preorder tl)); last done.
  rewrite (filter_none (λ x, R x k) (preorder tr));
    last (eapply Forall_impl; [exact Hr |]; by intros x [_ ?]).
  rewrite (filter_none (λ x, ¬ R x k) (preorder tl));
    last (eapply Forall_impl; [exact Hl |]; by intros x ? ?).
  rewrite (filter_all (λ x, ¬ R x k) (preorder tr));
    last (eapply Forall_impl; [exact Hr |]; by intros x [_ ?]).
  rewrite app_nil_r /=. by rewrite (IHl Hbl) (IHr Hbr).
Qed.

(** X10: inserting the keys that [preOrder] printed, in the order it printed
    them, into an empty tree builds a second tree with the same arrangement
    of keys as the ordered tree they came from: all three traversals print
    for it what they print for the original. *)
Theorem preOrder_reinsert_rebuilds σ r t fuel :
  repr (heap σ) r t → bst R t → size t < fuel →
  ∃ v o_in o_pre o_post σ1 r2 σ2 t2,
    inOrder fuel r σ = Done v (mkState (heap σ) (console σ ++ o_in)) ∧
    postOrder fuel r σ = Done v (mkState (heap σ) (console σ ++ o_post)) ∧
    preOrder fuel r σ = Done v σ1 ∧
    console σ1 = console σ ++ o_pre ∧
    forEach_insert R fuel o_pre null σ1 = Done r2 σ2 ∧
    is_tree (heap σ2) r2 t2 ∧
    erase t2 = erase t ∧
    inOrder fuel r2 σ2 = Done v (mkState (heap σ2) (console σ2 ++ o_in)) ∧
    preOrder fuel r2 σ2 = Done v (mkState (heap σ2) (console σ2 ++ o_pre)) ∧
    postOrder fuel r2 σ2 = Done v (mkState (heap σ2) (console σ2 ++ o_post)).
Proof.
  intros Hrep Hbst Hsize.
  assert (Hfuel : height t < fuel) by (pose proof (height_le_size t); lia).
  set (σ1 := mkState (heap σ) (console σ ++ preorder t)).
  destruct (forEach_erase (preorder t) fuel null σ1 Leaf)
    as (r2 & σ2 & t2 & Hrun & Htree2 & _ & Herase & _).
  { split; [done | constructor]. }
  { simpl. by rewrite preorder_inorder length_inorder. }
  rewrite key_insert_all_preorder // in Herase.
  destruct (erase_eq_reads _ _ Herase) as (Hin & Hpre & Hpost & Hh & Hv).
  exists (traversal_result t), (inorder t), (preorder t), (postorder t),
    σ1, r2, σ2, t2.
  refine (conj (inOrder_sound t fuel r σ Hrep Hfuel)
         (conj (postOrder_sound t fuel r σ Hrep Hfuel)
         (conj (preOrder_sound t fuel r σ Hrep Hfuel)
         (conj eq_refl (conj Hrun (conj Htree2 (conj Herase _))))))).
  rewrite -Hin -Hpre -Hpost -Hv. destruct Htree2 as [Hrep2 _].
  split_and!.
  - apply inOrder_sound; [done | lia].
  - apply preOrder_sound; [done | lia].
  - apply postOrder_sound; [done | lia].
Qed.

Lemma key_insert_all_descending ks :
  StronglySorted (flip R) ks → key_insert_all R ks KLeaf = left_spine ks.
Proof.
  induction 1 as [|k rest _ IH Hall]; [done |].
  rewrite [key_insert_all _ _ _]/= key_insert_all_node.
  rewrite (filter_all (λ x, R x k) rest); last done.
  rewrite (filter_none (λ x, ¬ R x k) rest);
    last (eapply Forall_impl; [exact Hall |]; by intros x ? ?).
  by rewrite IH.
Qed.

Lemma key_insert_all_ascending ks :
  StronglySorted (strict R) ks → key_insert_all R ks KLeaf = right_spine ks.
Proof.
  induction 1 as [|k rest _ IH Hall]; [done |].
  rewrite [key_insert_all _ _ _]/= key_insert_all_node.
  rewrite (filter_none (λ x, R x k) rest);
    last (eapply Forall_impl; [exact Hall |]; by intros x [_ ?]).
  rewrite (filter_all (λ x, ¬ R x k) rest);
    last (eapply Forall_impl; [exact Hall |]; by intros x [_ ?]).
  by rewrite IH.
Qed.

Lemma left_spine_reads ks : ∀ t,
  erase t = left_spine ks →
  preorder t = ks ∧ inorder t = reverse ks ∧ postorder t = reverse ks ∧
  height t = length ks.
Proof.
  induction ks as [|k rest IH]; intros [|l tl k' tr]; simpl; try done.
  intros [= Hl <- Hr]. destruct tr; [| done].
  destruct (IH _ Hl) as (-> & -> & -> & ->).
  rewrite reverse_cons app_nil_r /=. repeat split. lia.
Qed.

Lemma right_spine_reads ks : ∀ t,
  erase t = right_spine ks →
  preorder t = ks ∧ inorder t = ks ∧ postorder t = reverse ks ∧
  height t = length ks.
Proof.
  induction ks as [|k rest IH]; intros [|l tl k' tr]; simpl; try done.
  intros [= Hl <- Hr]. destruct tl; [| done].
  destruct (IH _ Hr) as (-> & -> & -> & ->).
  rewrite reverse_cons /=. repeat split.
Qed.

(** X11: keys inserted in non-increasing order (each [<=] all before it,
    repeats allowed) go down the left links only: [preOrder] prints them in
    the order they were inserted, [inOrder] and [postOrder] in the opposite
    order, and the tree is as deep as there are keys. *)
Theorem descending_inserts_left_spine ks fuel σ :
  StronglySorted (flip R) ks → length ks < fuel →
  ∃ root σ1 t v,
    forEach_insert R fuel ks null σ = Done root σ1 ∧
    is_tree (heap σ1) root t ∧
    erase t = left_spine ks ∧
    height t = length ks ∧
    preOrder fuel root σ1 = Done v (mkState (heap σ1) (console σ1 ++ ks)) ∧
    inOrder fuel root σ1
      = Done v (mkState (heap σ1) (console σ1 ++ reverse ks)) ∧
    postOrder fuel root σ1
      = Done v (mkState (heap σ1) (console σ1 ++ reverse ks)).
Proof.
  intros Hsorted Hfuel.
  destruct (forEach_erase ks fuel null σ Leaf)
    as (root & σ1 & t & Hrun & Htree & _ & Herase & _).
  { split; [done | constructor]. }
  { simpl. lia. }
  rewrite key_insert_all_descending // in Herase.
  destruct (left_spine_reads _ _ Herase) as (Hpre & Hin & Hpost & Hh).
  exists root, σ1, t, (traversal_result t).
  refine (conj Hrun (conj Htree (conj Herase (conj Hh _)))).
  destruct Htree as [Hrep _]. rewrite -{1}Hpre -{1}Hin -Hpost. split_and!.
  - apply preOrder_sound; [done | lia].
  - apply inOrder_sound; [done | lia].
  - apply postOrder_sound; [done | lia].
Qed.

(** X12: keys inserted in strictly increasing order go down the right links
    only: [inOrder] and [preOrder] print them in the order they were
    inserted, [postOrder] in the opposite order, and the tree is as deep as
    there are keys. *)
Theorem ascending_inserts_right_spine ks fuel σ :
  StronglySorted (strict R) ks → length ks < fuel →
  ∃ root σ1 t v,
    forEach_insert R fuel ks null σ = Done root σ1 ∧
    is_tree (heap σ1) root t ∧
    erase t = right_spine ks ∧
    height t = length ks ∧
    preOrder fuel root σ1 = Done v (mkState (heap σ1) (console σ1 ++ ks)) ∧
    inOrder fuel root σ1 = Done v (mkState (heap σ1) (console σ1 ++ ks)) ∧
    postOrder fuel root σ1
      = Done v (mkState (heap σ1) (console σ1 ++ reverse ks)).
Proof.
  intros Hsorted Hfuel.
  destruct (forEach_erase ks fuel null σ Leaf)
    as (root & σ1 & t & Hrun & Htree & _ & Herase & _).
  { split; [done | constructor]. }
  { simpl. lia. }
  rewrite key_insert_all_ascending // in Herase.
  destruct (right_spine_reads _ _ Herase) as (Hpre & Hin & Hpost & Hh).
  exists root, σ1, t, (traversal_result t).
  refine (conj Hrun (conj Htree (conj Herase (conj Hh _)))).
  destruct Htree as [Hrep _]. rewrite -{1}Hpre -{1}Hin -Hpost. split_and!.
  - apply preOrder_sound; [done | lia].
  - apply inOrder_sound; [done | lia].
  - apply postOrder_sound; [done | lia].
Qed.

End Proofs.

(** ** The scenario of [executeNodeCase] and sample runs *)

Lemma tree3_is_tree : is_tree (heap state3) (ptr 1) tree3.
Proof.
  split.
  - simpl. split; [done |]. eexists. split; [reflexivity |]. simpl.
    split; [done |]. split.
    + split; [done |]. eexists. split; [reflexivity |]. done.
    + split; [done |]. eexists. split; [reflexivity |]. done.
  - simpl. repeat (apply NoDup_cons; split; [set_solver |]). apply NoDup_nil_2.
Qed.

Lemma tree3_bst : bst Z.le tree3.
Proof.
  simpl. repeat split; try (by constructor);
    repeat constructor; rewrite /strict; lia.
Qed.

Lemma tree3_height : height tree3 < 3.
Proof. simpl. lia. Qed.

Lemma nodeData_length : length nodeData < 7.
Proof. simpl. lia. Qed.

(** Absent roots: [insert], [count] and the traversals test [node == null]
    and so treat [undefined] like [null]; [min] tests [node === null] and
    reads [undefined.data]. *)
Lemma undefined_root (σ : state Z) (key : Z) fuel :
  insert Z.le fuel undefined key σ = insert Z.le fuel null key σ ∧
  count fuel undefined σ = count fuel null σ ∧
  inOrder fuel undefined σ = inOrder fuel null σ ∧
  preOrder fuel undefined σ = preOrder fuel null σ ∧
  postOrder fuel undefined σ = postOrder fuel null σ ∧
  min fuel undefined σ = Fail TypeError.
Proof. by destruct fuel. Qed.

(** C9: inserting 4, 2, 1, 3, 6, 5 in that order into the empty tree gives a
    tree whose [inOrder] prints 1, 2, 3, 4, 5, 6, whose [count] is 6 and
    whose [min] is 1. *)
Theorem executeNodeCase_scenario fuel :
  4 ≤ fuel →
  ∃ root σ,
    forEach_insert Z.le fuel nodeData null empty_state = Done root σ ∧
    (∃ v σ', inOrder fuel root σ = Done v σ' ∧
             console σ' = [1; 2; 3; 4; 5; 6]%Z) ∧
    count fuel root σ = Done 6 σ ∧
    min fuel root σ = Done (VData 1%Z) σ.
Proof.
  intros Hfuel.
  assert (∃ root σ,
    forEach_insert Z.le 4 nodeData null empty_state = Done root σ ∧
    (∃ v σ', inOrder 4 root σ = Done v σ' ∧
             console σ' = [1; 2; 3; 4; 5; 6]%Z) ∧
    count 4 root σ = Done 6 σ ∧
    min 4 root σ = Done (VData 1%Z) σ) as (root & σ & H1 & (v & σ' & H2 & H3) & H4 & H5).
  { eexists _, _. split; [vm_compute; reflexivity |].
    split; [eexists _, _; split; vm_compute; reflexivity |].
    split; vm_compute; reflexivity. }
  exists root, σ. split_and!.
  - by apply (forEach_fuel_mono Z.le nodeData 4 fuel).
  - exists v, σ'. split; [| done]. by apply (inOrder_fuel_mono 4 fuel).
  - by apply (count_fuel_mono 4 fuel).
  - by apply (min_fuel_mono 4 fuel).
Qed.

(** X13: the caller itself. [executeNodeCase] returns, the keys go to the
    console in order as a side effect, and the heading it hands to the page
    is built from [inOrder]'s return value, so it ends in "undefined" and
    names no key. *)
Lemma executeNodeCase_run fuel :
  4 ≤ fuel →
  ∃ σ, executeNodeCase fuel empty_state
         = Done "Minimum value in BST is undefined" σ ∧
       console σ = [1; 2; 3; 4; 5; 6]%Z.
Proof.
  intros Hfuel.
  assert (∃ σ, executeNodeCase 4 empty_state
                 = Done "Minimum value in BST is undefined" σ ∧
               console σ = [1; 2; 3; 4; 5; 6]%Z) as (σ & Hrun & Hcon).
  { eexists. split; vm_compute; reflexivity. }
  exists σ. split; [| done]. revert Hrun. rewrite /executeNodeCase.
  apply approx_bind; [by apply forEach_fuel_mono |]. intros root.
  apply approx_bind; [by apply inOrder_fuel_mono |]. intros v.
  apply approx_refl.
Qed.

Lemma inOrder_of_inserted_keys_sorted_witness :
  ∃ root σ1 v σ2 out,
    forEach_insert Z.le 7 nodeData null empty_state = Done root σ1 ∧
    inOrder 7 root σ1 = Done v σ2 ∧
    console σ2 = console empty_state ++ out ∧
    Sorted Z.le out ∧
    out ≡ₚ nodeData.
Proof.
  apply (inOrder_of_inserted_keys_sorted Z.le nodeData 7 empty_state).
  simpl. lia.
Defined.

Lemma insert_preserves_bst_witness :
  ∃ r' σ' t',
    insert Z.le 3 (ptr 1) 5%Z state3 = Done r' σ' ∧
    is_tree (heap σ') r' t' ∧
    bst Z.le t'.
Proof.
  apply (insert_preserves_bst Z.le state3 (ptr 1) tree3 5%Z 3).
  - exact tree3_is_tree.
  - exact tree3_bst.
  - simpl. lia.
Defined.

Lemma insert_refines_spec_witness :
  ∃ new σ' t',
    insert Z.le 3 (ptr 1) 5%Z state3 = Done (root t') σ' ∧
    is_tree (heap σ') (root t') t' ∧
    heap state3 !! new = None ∧
    t' = spec_insert Z.le new 5%Z tree3 ∧
    (tree3 = Leaf → t' = Tree new Leaf 5%Z Leaf) ∧
    (∀ l, ptr 1 = ptr l → root t' = ptr l) ∧
    (∀ l tl k tr, tree3 = Tree l tl k tr → (5 ≤ k)%Z →
       t' = Tree l (spec_insert Z.le new 5%Z tl) k tr) ∧
    (∀ l tl k tr, tree3 = Tree l tl k tr → ¬ (5 ≤ k)%Z →
       t' = Tree l tl k (spec_insert Z.le new 5%Z tr)) ∧
    (∀ l tl tr, tree3 = Tree l tl 5%Z tr →
       t' = Tree l (spec_insert Z.le new 5%Z tl) 5%Z tr).
Proof.
  apply (insert_refines_spec Z.le state3 (ptr 1) tree3 5%Z 3).
  - exact tree3_is_tree.
  - simpl. lia.
Defined.

Lemma min_spec_witness :
  min 3 null state3 = Done VNull state3 ∧
  min 3 (ptr 1) state3 = Done (min_of tree3) state3 ∧
  (∀ l tl k tr, tree3 = Tree l tl k tr → min_of tree3 = VData (leftmost tl k)) ∧
  ∃ root σ' m,
    forEach_insert Z.le 7 nodeData null state3 = Done root σ' ∧
    min 7 root σ' = Done (VData m) σ' ∧
    is_minimum Z.le m nodeData.
Proof.
  apply (min_spec Z.le state3 (ptr 1) tree3 3 nodeData 7).
  - exact (proj1 tree3_is_tree).
  - simpl. lia.
  - discriminate.
  - simpl. lia.
Defined.

Lemma count_spec_witness :
  count 3 null state3 = Done 0 state3 ∧
  count 3 (ptr 1) state3 = Done (size tree3) state3 ∧
  (∀ σ2 r2 t2, repr (heap σ2) r2 t2 → same_shape tree3 t2 →
     count 3 r2 σ2 = Done (size tree3) σ2) ∧
  ∃ root σ',
    forEach_insert Z.le 7 nodeData null state3 = Done root σ' ∧
    count 7 root σ' = Done (length nodeData) σ'.
Proof.
  apply (count_spec Z.le state3 (ptr 1) tree3 3 nodeData 7).
  - exact (proj1 tree3_is_tree).
  - simpl. lia.
  - simpl. lia.
Defined.

Lemma traversal_orders_witness :
  inOrder 3 (ptr 1) state3
    = Done undefined (mkState heap3 [2; 4; 6]%Z) ∧
  preOrder 3 (ptr 1) state3
    = Done undefined (mkState heap3 [4; 2; 6]%Z) ∧
  postOrder 3 (ptr 1) state3
    = Done undefined (mkState heap3 [2; 6; 4]%Z) ∧
  inOrder 3 null state3 = Done null state3 ∧
  preOrder 3 null state3 = Done null state3 ∧
  postOrder 3 null state3 = Done null state3.
Proof.
  apply (traversal_orders state3 (ptr 1) tree3 3).
  - exact (proj1 tree3_is_tree).
  - simpl. lia.
Defined.

Lemma traversals_read_only_witness :
  ∃ v1 σ1 v2 σ2 v3 σ3,
    inOrder 3 (ptr 1) state3 = Done v1 σ1 ∧ heap σ1 = heap state3 ∧
    preOrder 3 (ptr 1) state3 = Done v2 σ2 ∧ heap σ2 = heap state3 ∧
    postOrder 3 (ptr 1) state3 = Done v3 σ3 ∧ heap σ3 = heap state3.
Proof.
  apply (traversals_read_only state3 (ptr 1) tree3 3).
  - exact (proj1 tree3_is_tree).
  - simpl. lia.
Defined.

Lemma traversal_idempotent_witness :
  prints_twice (inOrder 3 (ptr 1)) state3 [2; 4; 6]%Z ∧
  prints_twice (preOrder 3 (ptr 1)) state3 [4; 2; 6]%Z ∧
  prints_twice (postOrder 3 (ptr 1)) state3 [2; 6; 4]%Z.
Proof.
  apply (traversal_idempotent state3 (ptr 1) tree3 3).
  - exact (proj1 tree3_is_tree).
  - simpl. lia.
Defined.

Lemma executeNodeCase_scenario_witness :
  ∃ root σ,
    forEach_insert Z.le 7 nodeData null empty_state = Done root σ ∧
    (∃ v σ', inOrder 7 root σ = Done v σ' ∧
             console σ' = [1; 2; 3; 4; 5; 6]%Z) ∧
    count 7 root σ = Done 6 σ ∧
    min 7 root σ = Done (VData 1%Z) σ.
Proof. apply (executeNodeCase_scenario 7). lia. Defined.

Lemma min_read_only_witness :
  ∃ v σ', min 3 (ptr 1) state3 = Done v σ' ∧ heap σ' = heap state3.
Proof.
  apply (min_read_only state3 (ptr 1) tree3 3).
  - exact (proj1 tree3_is_tree).
  - simpl. lia.
Defined.

(** ** Sample runs of the further properties *)


Lemma insert_effect_witness :
  ∃ r' σ',
    insert Z.le 3 (ptr 1) 5%Z state3 = Done r' σ' ∧
    console σ' = console state3 ∧
    dom (heap σ') = {[fresh (dom (heap state3))]} ∪ dom (heap state3) ∧
    heap σ' !! fresh (dom (heap state3)) = Some (mkNode null null 5%Z) ∧
    (∀ l, ptr 1 = ptr l → r' = ptr l) ∧
    (loose_null (ptr 1) = true → r' = ptr (fresh (dom (heap state3)))) ∧
    (∀ l n, heap state3 !! l = Some n →
       ∃ n', heap σ' !! l = Some n' ∧ node_kept n n').
Proof.
  destruct (insert Z.le 3 (ptr 1) 5%Z state3) as [r' σ' |] eqn:Hrun;
    [| vm_compute in Hrun; discriminate].
  exists r', σ'. split; [reflexivity |].
  exact (insert_effect Z.le 3 (ptr 1) 5%Z state3 r' σ' Hrun).
Defined.

Lemma readers_never_write_witness :
  inOrder 3 (ptr 1) state3 = Done undefined (mkState heap3 [2; 4; 6]%Z) ∧
  heap (mkState heap3 [2; 4; 6]%Z) = heap state3 ∧
  (∃ out, console (mkState heap3 [2; 4; 6]%Z) = console state3 ++ out).
Proof.
  destruct (readers_never_write (K:=Z) 3 (ptr 1)) as (Hheap & Hcon & _).
  assert (Hrun : inOrder 3 (ptr 1) state3
                 = Done undefined (mkState heap3 [2; 4; 6]%Z)) by reflexivity.
  split; [exact Hrun |].
  split; [exact (Hheap _ _ _ Hrun) | exact (Hcon _ _ _ Hrun)].
Defined.

Lemma traversals_print_same_keys_witness :
  ∃ v o_in o_pre o_post n,
    inOrder 3 (ptr 1) state3
      = Done v (mkState (heap state3) (console state3 ++ o_in)) ∧
    preOrder 3 (ptr 1) state3
      = Done v (mkState (heap state3) (console state3 ++ o_pre)) ∧
    postOrder 3 (ptr 1) state3
      = Done v (mkState (heap state3) (console state3 ++ o_post)) ∧
    count 3 (ptr 1) state3 = Done n state3 ∧
    o_pre ≡ₚ o_in ∧ o_post ≡ₚ o_in ∧
    length o_in = n ∧ length o_pre = n ∧ length o_post = n.
Proof.
  apply (traversals_print_same_keys state3 (ptr 1) tree3 3).
  - exact (proj1 tree3_is_tree).
  - simpl. lia.
Defined.

Lemma min_is_first_printed_witness :
  ∃ m rest,
    min 3 (ptr 1) state3 = Done (VData m) state3 ∧
    inOrder 3 (ptr 1) state3
      = Done undefined
          (mkState (heap state3) (console state3 ++ m :: rest)).
Proof.
  apply (min_is_first_printed state3 1%positive tree3 3).
  - exact (proj1 tree3_is_tree).
  - simpl. lia.
Defined.

Lemma count_after_insert_witness :
  ∃ n r' σ',
    count 3 (ptr 1) state3 = Done n state3 ∧
    insert Z.le 3 (ptr 1) 5%Z state3 = Done r' σ' ∧
    count 4 r' σ' = Done (S n) σ'.
Proof.
  apply (count_after_insert Z.le state3 (ptr 1) tree3 5%Z 3).
  - exact tree3_is_tree.
  - simpl. lia.
Defined.

Lemma insert_position_in_inOrder_witness :
  ∃ before after v r' σ' v',
    inOrder 3 (ptr 1) state3
      = Done v (mkState (heap state3) (console state3 ++ before ++ after)) ∧
    insert Z.le 3 (ptr 1) 4%Z state3 = Done r' σ' ∧
    inOrder 4 r' σ'
      = Done v' (mkState (heap σ') (console σ' ++ before ++ 4%Z :: after)) ∧
    Forall (λ x, ¬ (4 ≤ x)%Z) before ∧
    Forall (Z.le 4) after.
Proof.
  apply (insert_position_in_inOrder Z.le state3 (ptr 1) tree3 4%Z 3).
  - exact tree3_is_tree.
  - exact tree3_bst.
  - simpl. lia.
Defined.

Lemma min_after_insert_witness :
  ∃ v r' σ',
    min 3 (ptr 1) state3 = Done v state3 ∧
    insert Z.le 3 (ptr 1) 1%Z state3 = Done r' σ' ∧
    min 4 r' σ' = Done (VData (min_with Z.le 1%Z v)) σ'.
Proof.
  apply (min_after_insert Z.le state3 (ptr 1) tree3 1%Z 3).
  - exact tree3_is_tree.
  - exact tree3_bst.
  - simpl. lia.
Defined.

Lemma ordered_tree_reads_witness :
  ∃ out m,
    inOrder 3 (ptr 1) state3
      = Done undefined (mkState (heap state3) (console state3 ++ out)) ∧
    Sorted Z.le out ∧
    min 3 (ptr 1) state3 = Done (VData m) state3 ∧
    m ∈ out ∧
    Forall (Z.le m) out.
Proof.
  apply (ordered_tree_reads Z.le state3 1%positive tree3 3).
  - exact (proj1 tree3_is_tree).
  - exact tree3_bst.
  - simpl. lia.
Defined.

Lemma inOrder_order_independent_witness :
  ∃ out root1 σ1 v1 σ1' root2 σ2 v2 σ2',
    forEach_insert Z.le 7 nodeData null empty_state = Done root1 σ1 ∧
    inOrder 7 root1 σ1 = Done v1 σ1' ∧
    console σ1' = console empty_state ++ out ∧
    forEach_insert Z.le 7 (reverse nodeData) null empty_state
      = Done root2 σ2 ∧
    inOrder 7 root2 σ2 = Done v2 σ2' ∧
    console σ2' = console empty_state ++ out.
Proof.
  apply (inOrder_order_independent Z.le nodeData (reverse nodeData) 7
           empty_state).
  - symmetry. apply reverse_Permutation.
  - simpl. lia.
Defined.

Lemma preOrder_reinsert_rebuilds_witness :
  ∃ v o_in o_pre o_post σ1 r2 σ2 t2,
    inOrder 4 (ptr 1) state3
      = Done v (mkState (heap state3) (console state3 ++ o_in)) ∧
    postOrder 4 (ptr 1) state3
      = Done v (mkState (heap state3) (console state3 ++ o_post)) ∧
    preOrder 4 (ptr 1) state3 = Done v σ1 ∧
    console σ1 = console state3 ++ o_pre ∧
    forEach_insert Z.le 4 o_pre null σ1 = Done r2 σ2 ∧
    is_tree (heap σ2) r2 t2 ∧
    erase t2 = erase tree3 ∧
    inOrder 4 r2 σ2 = Done v (mkState (heap σ2) (console σ2 ++ o_in)) ∧
    preOrder 4 r2 σ2 = Done v (mkState (heap σ2) (console σ2 ++ o_pre)) ∧
    postOrder 4 r2 σ2 = Done v (mkState (heap σ2) (console σ2 ++ o_post)).
Proof.
  apply (preOrder_reinsert_rebuilds Z.le state3 (ptr 1) tree3 4).
  - exact (proj1 tree3_is_tree).
  - exact tree3_bst.
  - simpl. lia.
Defined.

Lemma descending_inserts_left_spine_witness :
  ∃ root σ1 t v,
    forEach_insert Z.le 5 [6; 5; 5; 1]%Z null empty_state = Done root σ1 ∧
    is_tree (heap σ1) root t ∧
    erase t = left_spine [6; 5; 5; 1]%Z ∧
    height t = 4 ∧
    preOrder 5 root σ1
      = Done v (mkState (heap σ1) (console σ1 ++ [6; 5; 5; 1]%Z)) ∧
    inOrder 5 root σ1
      = Done v (mkState (heap σ1) (console σ1 ++ [1; 5; 5; 6]%Z)) ∧
    postOrder 5 root σ1
      = Done v (mkState (heap σ1) (console σ1 ++ [1; 5; 5; 6]%Z)).
Proof.
  apply (descending_inserts_left_spine Z.le [6; 5; 5; 1]%Z 5 empty_state).
  - repeat constructor; rewrite /flip; lia.
  - simpl. lia.
Defined.

Lemma ascending_inserts_right_spine_witness :
  ∃ root σ1 t v,
    forEach_insert Z.le 5 [1; 2; 5; 9]%Z null empty_state = Done root σ1 ∧
    is_tree (heap σ1) root t ∧
    erase t = right_spine [1; 2; 5; 9]%Z ∧
    height t = 4 ∧
    preOrder 5 root σ1
      = Done v (mkState (heap σ1) (console σ1 ++ [1; 2; 5; 9]%Z)) ∧
    inOrder 5 root σ1
      = Done v (mkState (heap σ1) (console σ1 ++ [1; 2; 5; 9]%Z)) ∧
    postOrder 5 root σ1
      = Done v (mkState (heap σ1) (console σ1 ++ [9; 5; 2; 1]%Z)).
Proof.
  apply (ascending_inserts_right_spine Z.le [1; 2; 5; 9]%Z 5 empty_state).
  - repeat constructor; rewrite /strict; lia.
  - simpl. lia.
Defined.

Lemma executeNodeCase_run_witness :
  ∃ σ, executeNodeCase 7 empty_state
         = Done "Minimum value in BST is undefined" σ ∧
       console σ = [1; 2; 3; 4; 5; 6]%Z.
Proof. apply (executeNodeCase_run 7). lia. Defined.

End BST.
